(** * Hybrid ranking and K/P balancing of the SHL assessment recommender

    Shallow embedding of the ranking code that [api.py]
    ([_recommend_assessments]) and [evaluate_and_predict.py]
    ([get_recommendations_local]) share verbatim: the duration parsers,
    the skill expander, the three-signal scorer and the category balancer.

    Modelling conventions.
    - A Python [str] is a [string]; the text functions ([lower], [split],
      [strip], the regular expressions) are modelled on ASCII text, the
      characters above 127 being left alone by all of them.
    - A Python [float] score is an exact rational ([Qc], canonical
      fractions, so that equal numbers are equal terms); rounding is not
      modelled.
    - A Python [set] of strings is a [gset string]; where the code iterates
      over a set, the iteration order is an explicit list argument.
    - A result of [vector_store.search] is a record [Assessment]; the keys
      that the ranking code adds to it are the fields of [Scored]. *)

From Stdlib Require Import Ascii String ZArith QArith Qcanon Qround.
From Stdlib Require Import DecimalString DecimalNat.
From stdpp Require Import base numbers list strings gmap sorting.

#[local] Set Warnings "-clear-no-such-hyp".

Local Open Scope string_scope.

(** ** Text primitives of Python used by the ranking code *)

Module Text.

Definition code (c : ascii) : N := N_of_ascii c.

(** [c.isdigit()] on ASCII, which is what [\d] matches. *)
Definition is_digit (c : ascii) : bool :=
  ((48 <=? code c) && (code c <=? 57))%N.

(** What [\s], [str.split()] and [str.strip()] treat as white space on
    ASCII: tab, line feed, vertical tab, form feed, carriage return, the
    four separators 28-31 and the blank. *)
Definition is_space (c : ascii) : bool :=
  (((9 <=? code c) && (code c <=? 13))
   || ((28 <=? code c) && (code c <=? 32)))%N.

Definition lower_char (c : ascii) : ascii :=
  if ((65 <=? code c) && (code c <=? 90))%N
  then ascii_of_N (code c + 32) else c.

(** [s.lower()] *)
Fixpoint lower (s : string) : string :=
  match s with
  | "" => ""
  | String c t => String (lower_char c) (lower t)
  end.

(** [s.startswith(p)] *)
Fixpoint starts_with (p s : string) : bool :=
  match p, s with
  | "", _ => true
  | String _ _, "" => false
  | String a p', String b s' => if Ascii.eqb a b then starts_with p' s' else false
  end.

(** [needle in haystack] on two strings: the substring test. *)
Fixpoint contains (needle hay : string) : bool :=
  starts_with needle hay
  || match hay with
     | "" => false
     | String _ t => contains needle t
     end.

(** [s.endswith(p)] *)
Definition ends_with (p s : string) : bool :=
  starts_with (String.rev p) (String.rev s).

(** [x in l] on a list of strings: membership by equality. *)
Definition mem (x : string) (l : list string) : bool :=
  existsb (String.eqb x) l.

Fixpoint split_from (cur : string) (s : string) : list string :=
  match s with
  | "" => if String.eqb cur "" then [] else [cur]
  | String c t =>
      if is_space c
      then (if String.eqb cur "" then split_from "" t
            else cur :: split_from "" t)
      else split_from (cur ++ String c "") t
  end.

(** [s.split()]: the maximal runs of characters that are not white space. *)
Definition split (s : string) : list string := split_from "" s.

Fixpoint lstrip (s : string) : string :=
  match s with
  | "" => ""
  | String c t => if is_space c then lstrip t else s
  end.

(** [s.strip()] *)
Definition strip (s : string) : string :=
  String.rev (lstrip (String.rev (lstrip s))).

Fixpoint take_while (p : ascii -> bool) (s : string) : string :=
  match s with
  | "" => ""
  | String c t => if p c then String c (take_while p t) else ""
  end.

Fixpoint drop (n : nat) (s : string) : string :=
  match n, s with
  | O, _ => s
  | S n', String _ t => drop n' t
  | S _, "" => ""
  end.

Fixpoint take (n : nat) (s : string) : string :=
  match n, s with
  | S n', String c t => String c (take n' t)
  | _, _ => ""
  end.

(** Every character of [s] satisfies [p]. *)
Fixpoint all_chars (p : ascii -> bool) (s : string) : bool :=
  match s with
  | "" => true
  | String c t => p c && all_chars p t
  end.


(** [int(s)] for a string of decimal digits. *)
Definition int_of_digits (s : string) : Z :=
  let fix go (acc : Z) (s : string) : Z :=
    match s with
    | "" => acc
    | String c t => go (10 * acc + Z.of_N (code c - 48))%Z t
    end in
  go 0%Z s.

End Text.

(** ** The regular expressions [(\d+)\s*(?:u1|u2|...)]

    Every pattern of the two duration parsers has this shape: a captured
    run of digits, optional white space, and an alternation of literal
    unit words.  [match_at] is the backtracking match at one position (the
    digit run tried from its longest length down to one digit, the white
    space from its longest length down to none, the alternatives from left
    to right); [search] is [re.search], the match at the leftmost position
    that has one.  Both return the text of group 1. *)

Module Re.
Import Text.

Definition try_units (units : list string) (s : string) : bool :=
  existsb (fun u => starts_with u s) units.

(** White space of length [j], [j-1], ..., 0, then a unit. *)
Fixpoint try_spaces (units : list string) (j : nat) (s : string) : bool :=
  try_units units (drop j s)
  || match j with
     | O => false
     | S j' => try_spaces units j' s
     end.

(** Digit runs of length [k], [k-1], ..., 1, each followed by the longest
    white space that lets a unit match. *)
Fixpoint try_digits (units : list string) (k : nat) (s : string) : option string :=
  match k with
  | O => None
  | S k' =>
      let rest := drop k s in
      if try_spaces units (String.length (take_while is_space rest)) rest
      then Some (take k s)
      else try_digits units k' s
  end.

Definition match_at (units : list string) (s : string) : option string :=
  try_digits units (String.length (take_while is_digit s)) s.

Fixpoint search (units : list string) (s : string) : option string :=
  match match_at units s with
  | Some g => Some g
  | None =>
      match s with
      | "" => None
      | String _ t => search units t
      end
  end.

(** What the pattern describes: digits, white space, one of the units,
    at the head of [s] and somewhere in [s]. *)
Definition matches_head (units : list string) (s : string) : Prop :=
  ∃ g ws u rest,
    s = g ++ ws ++ u ++ rest ∧ g ≠ ""
    ∧ all_chars is_digit g = true ∧ all_chars is_space ws = true ∧ u ∈ units.

Definition occurs (units : list string) (s : string) : Prop :=
  ∃ pre t, s = pre ++ t ∧ matches_head units t.

End Re.

(** ** Duration parser *)

Record pattern := Pattern {
  pat_text : string;          (* the regular expression as written *)
  pat_units : list string     (* its alternation of unit words *)
}.

Definition patterns : list pattern :=
  [ Pattern "(\d+)\s*(?:min|minute|minutes)" ["min"; "minute"; "minutes"];
    Pattern "(\d+)\s*(?:hr|hour|hours)" ["hr"; "hour"; "hours"];
    Pattern "(\d+)\s*(?:h)" ["h"] ].

(** ['hour' in pattern or 'hr' in pattern or pattern.endswith('h)')] *)
Definition is_hour_pattern (p : pattern) : bool :=
  Text.contains "hour" (pat_text p)
  || Text.contains "hr" (pat_text p)
  || Text.ends_with "h)" (pat_text p).

Fixpoint scan_patterns (ps : list pattern) (q : string) : option Z :=
  match ps with
  | [] => None
  | p :: ps' =>
      match Re.search (pat_units p) q with
      | Some g =>
          let value := Text.int_of_digits g in
          if is_hour_pattern p then Some (value * 60)%Z else Some value
      | None => scan_patterns ps' q
      end
  end.

(** [extract_duration_constraint(query)]; [None] is Python's [None]. *)
Definition extract_duration_constraint (query : string) : option Z :=
  scan_patterns patterns (Text.lower query).

(** [parse_duration(duration_str)] *)
Definition parse_duration (duration_str : string) : Z :=
  if String.eqb duration_str "" then 999%Z
  else
    let duration_str := Text.lower duration_str in
    let total_minutes := 0%Z in
    let total_minutes :=
      match Re.search ["hr"; "hour"] duration_str with
      | Some g => (total_minutes + Text.int_of_digits g * 60)%Z
      | None => total_minutes
      end in
    let total_minutes :=
      match Re.search ["min"; "minute"] duration_str with
      | Some g => (total_minutes + Text.int_of_digits g)%Z
      | None => total_minutes
      end in
    if (0 <? total_minutes)%Z then total_minutes else 999%Z.

(** The number that a match of [Re.search] stands for, counted [factor]
    times; 0 without a match. *)
Definition matched (factor : Z) (o : option string) : Z :=
  match o with
  | Some g => (Text.int_of_digits g * factor)%Z
  | None => 0%Z
  end.


(** ** Skill expander *)

(** The dictionary [SKILL_SYNONYMS], in the order of its [items()]. *)
Definition SKILL_SYNONYMS : list (string * list string) :=
  [ ("python", ["python"; "py"; "python3"]);
    ("java", ["java"; "j2ee"; "spring"]);
    ("javascript", ["javascript"; "js"; "node"; "nodejs"; "react"; "angular"; "vue"]);
    ("sql", ["sql"; "mysql"; "postgresql"; "database"; "db"]);
    ("data", ["data"; "analytics"; "analysis"]);
    ("excel", ["excel"; "spreadsheet"; "ms excel"]);
    ("communication", ["communication"; "verbal"; "written"; "presentation"]);
    ("leadership", ["leadership"; "management"; "manager"; "lead"]);
    ("teamwork", ["teamwork"; "collaboration"; "team"; "collaborative"]) ].

(** The inner loop of [expand_skills]: [expanded.update(synonyms)] for
    every group whose list has [skill_lower]. *)
Definition add_synonyms (skill_lower : string) (expanded : gset string) : gset string :=
  fold_left
    (fun expanded (item : string * list string) =>
       let synonyms := snd item in
       if Text.mem skill_lower synonyms
       then expanded ∪ list_to_set synonyms
       else expanded)
    SKILL_SYNONYMS expanded.

(** [expand_skills(skills)], before the final [list(expanded)]: the set
    that the loop builds. *)
Definition expand_skills (skills : list string) : gset string :=
  fold_left
    (fun expanded skill =>
       let skill_lower := Text.lower skill in
       add_synonyms skill_lower (expanded ∪ {[ skill_lower ]}))
    skills ∅.

(** [x] is a synonym of [sk]: some group lists both. *)
Definition synonym_of (sk x : string) : Prop :=
  ∃ item, item ∈ SKILL_SYNONYMS ∧ sk ∈ item.2 ∧ x ∈ item.2.


(** ** Data model *)

(** One result of [vector_store.search], with the keys that the ranking
    code reads.  [duration] is read with [res.get('duration', '')]: the
    field holds the empty string where the key is absent. *)
Record Assessment := {
  name : string;
  url : string;
  description : string;
  test_types : list string;
  job_level : string;
  skills : list string;
  duration : string;
  similarity_score : Qc
}.

(** What the ranking code consumes of the query: [list(expanded)] in the
    order the set was iterated, the three fields of the analysis after
    [.lower()] and the defaults of [.get], and the duration constraint. *)
Record QueryContext := {
  expanded_skills : list string;
  llm_job_level : string;
  llm_test_types : list string;
  llm_role : string;
  duration_constraint : option Z
}.

(** An assessment with the keys attached by the scoring loop. *)
Record Scored := {
  res : Assessment;
  final_score : Qc;
  keyword_score : Qc;
  metadata_score : Qc
}.

Definition rec_url (r : Scored) : string := url (res r).

(** ** Signal scorer *)

Local Open Scope Qc_scope.

(** The decimal literal [n/d] of the source. *)
Definition dec (n : Z) (d : positive) : Qc := Q2Qc (n # d).

(** Python's [min(a, b)]: [b] when [b < a], otherwise [a]. *)
Definition py_min (a b : Qc) : Qc := if bool_decide (b < a) then b else a.

(** The [if]/[elif] block that adds [P] to a required list with [K]. *)
Definition normalize_test_types (llm_test_types : list string) : list string :=
  match llm_test_types with
  | [] => ["K"; "P"]
  | _ =>
      if Text.mem "K" llm_test_types && negb (Text.mem "P" llm_test_types)
      then llm_test_types ++ ["P"]
      else llm_test_types
  end.

(** One iteration of [for skill in expanded_skills]. *)
Definition skill_step (r : Assessment) (keyword_score : Qc) (skill : string) : Qc :=
  let assessment_name := Text.lower (name r) in
  let assessment_skills := map (fun s => Text.strip (Text.lower s)) (skills r) in
  if Text.contains skill assessment_name then keyword_score + dec 18 10
  else if Text.mem skill assessment_skills then keyword_score + dec 12 10
  else if Text.contains skill (Text.lower (description r)) then keyword_score + dec 6 10
  else keyword_score.

(** One iteration of [for part in role_parts]. *)
Definition role_step (r : Assessment) (keyword_score : Qc) (part : string) : Qc :=
  if Text.contains part (Text.lower (name r)) then keyword_score + dec 9 10
  else keyword_score.

Definition role_parts (llm_role : string) : list string :=
  filter (fun p => 3 < String.length p)%nat (Text.split llm_role).

Definition compute_keyword_score (q : QueryContext) (r : Assessment) : Qc :=
  let keyword_score := fold_left (skill_step r) (expanded_skills q) 0 in
  if String.eqb (llm_role q) "" then keyword_score
  else fold_left (role_step r) (role_parts (llm_role q)) keyword_score.

(** [any(t in llm_test_types for t in res_types)] *)
Definition any_required (llm_test_types res_types : list string) : bool :=
  existsb (fun t => Text.mem t llm_test_types) res_types.

(** The metadata block; [types] is [llm_test_types] after the
    normalisation above. *)
Definition compute_metadata_score (q : QueryContext) (types : list string)
    (r : Assessment) : Qc :=
  let metadata_score := 0 in
  let res_types := test_types r in
  let has_k := Text.mem "K" res_types in
  let has_p := Text.mem "P" res_types in
  let metadata_score :=
    if has_k || has_p then
      let metadata_score := metadata_score + dec 3 10 in
      if any_required types res_types then metadata_score + dec 2 10
      else metadata_score
    else if any_required types res_types then metadata_score + dec 2 10
    else metadata_score in
  let metadata_score :=
    if negb (String.eqb (llm_job_level q) "")
       && Text.contains (llm_job_level q) (Text.lower (job_level r))
    then metadata_score + dec 3 10 else metadata_score in
  match duration_constraint q with
  | Some dc =>
      if (dc =? 0)%Z then metadata_score
      else
        let res_duration := parse_duration (duration r) in
        if bool_decide (Qc_of_Z res_duration ≤ Qc_of_Z dc * dec 12 10)
        then metadata_score + dec 4 10 else metadata_score
  | None => metadata_score
  end.

(** The body of the scoring loop for one result. *)
Definition score (q : QueryContext) (types : list string) (r : Assessment) : Scored :=
  let semantic_score := similarity_score r in
  let keyword_score := compute_keyword_score q r in
  let metadata_score := compute_metadata_score q types r in
  let final_score :=
    semantic_score * dec 35 100
    + py_min keyword_score (dec 35 10) * dec 45 100 / dec 35 10
    + metadata_score * dec 20 100 in
  {| res := r; final_score := final_score;
     keyword_score := keyword_score; metadata_score := metadata_score |}.

Definition score_all (q : QueryContext) (types : list string)
    (all_results : list Assessment) : list Scored :=
  map (score q types) all_results.

(** ** Category balancer *)

Local Open Scope list_scope.

(** [sorted(l, key=lambda x: x['final_score'], reverse=True)]: the stable
    sort by descending score, as an insertion sort.  An element is put in
    front of the first one whose score is not greater than its own, so
    that equal scores keep the order of the input. *)
Fixpoint insert_desc (x : Scored) (l : list Scored) : list Scored :=
  match l with
  | [] => [x]
  | y :: l' =>
      if bool_decide (final_score y ≤ final_score x) then x :: y :: l'
      else y :: insert_desc x l'
  end.

Definition sorted_desc (l : list Scored) : list Scored :=
  foldr insert_desc [] l.

(** [res_id not in {r['url'] for r in bucket}] *)
Definition url_in (id : string) (bucket : list Scored) : bool :=
  Text.mem id (map rec_url bucket).

Record Buckets := {
  best_k : list Scored;
  best_p : list Scored;
  best_other : list Scored
}.

(** One iteration of the bucketing loop. *)
Definition bucket_step (b : Buckets) (r : Scored) : Buckets :=
  let res_types := test_types (res r) in
  let is_k := Text.mem "K" res_types in
  let is_p := Text.mem "P" res_types in
  let res_id := rec_url r in
  let bk := if is_k && negb (url_in res_id (best_k b))
            then best_k b ++ [r] else best_k b in
  let bp := if is_p && negb (url_in res_id (best_p b))
            then best_p b ++ [r] else best_p b in
  let bo := if negb is_k && negb is_p && negb (url_in res_id (best_other b))
            then best_other b ++ [r] else best_other b in
  {| best_k := bk; best_p := bp; best_other := bo |}.

Definition make_buckets (sorted_results : list Scored) : Buckets :=
  fold_left bucket_step sorted_results
    {| best_k := []; best_p := []; best_other := [] |}.

(** One iteration of [for i in range(max(len(best_k), len(best_p)))]. *)
Definition interleave_step (n : nat) (bk bp : list Scored)
    (final_recommendations : list Scored) (i : nat) : list Scored :=
  let final_recommendations :=
    match bk !! i with
    | Some r =>
        if (length final_recommendations <? n)%nat
        then final_recommendations ++ [r] else final_recommendations
    | None => final_recommendations
    end in
  match bp !! i with
  | Some r =>
      if (length final_recommendations <? n)%nat
      then final_recommendations ++ [r] else final_recommendations
  | None => final_recommendations
  end.

Definition interleave (n : nat) (bk bp : list Scored) : list Scored :=
  fold_left (interleave_step n bk bp)
    (seq 0 (Nat.max (length bk) (length bp))) [].

(** The four branches of the selection. *)
Inductive Branch := BothRequired | KnowledgeOnly | PersonalityOnly | NeitherRequired.

Definition select_branch (types : list string) : Branch :=
  let llm_wants_k := Text.mem "K" types in
  let llm_wants_p := Text.mem "P" types in
  if llm_wants_k && llm_wants_p then BothRequired
  else if llm_wants_k then KnowledgeOnly
  else if llm_wants_p then PersonalityOnly
  else NeitherRequired.

Definition select (types : list string) (n : nat) (b : Buckets) : list Scored :=
  match select_branch types with
  | BothRequired => interleave n (best_k b) (best_p b)
  | KnowledgeOnly => take n (best_k b)
  | PersonalityOnly => take n (best_p b)
  | NeitherRequired => take (n / 2) (best_k b) ++ take (n / 2) (best_p b)
  end.

(** A Python [dict] with string keys as the list of its items in insertion
    order: assigning an existing key replaces the value where it stands, a
    new key goes to the end. *)
Fixpoint dict_set (d : list (string * Scored)) (k : string) (v : Scored)
    : list (string * Scored) :=
  match d with
  | [] => [(k, v)]
  | (k', v') :: d' =>
      if String.eqb k' k then (k', v) :: d' else (k', v') :: dict_set d' k v
  end.

(** [list({rec['url']: rec for rec in recs}.values())] *)
Definition unique_by_url (recs : list Scored) : list Scored :=
  map snd (fold_left (fun d r => dict_set d (rec_url r) r) recs []).

(** One iteration of the backfill loop; after the [break] nothing is
    appended, as in the iterations here once [n] entries are reached. *)
Definition backfill_step (n : nat) (unique_recs : list Scored) (r : Scored)
    : list Scored :=
  if (n <=? length unique_recs)%nat then unique_recs
  else if negb (url_in (rec_url r) unique_recs) then unique_recs ++ [r]
  else unique_recs.

Definition backfill (n : nat) (unique_recs bo : list Scored) : list Scored :=
  if (length unique_recs <? n)%nat
  then fold_left (backfill_step n) bo unique_recs
  else unique_recs.

(** From [sorted_results] to [results]. *)
Definition balance (types : list string) (n : nat) (scored_results : list Scored)
    : list Scored :=
  let sorted_results := sorted_desc scored_results in
  let b := make_buckets sorted_results in
  let final_recommendations := select types n b in
  let unique_recs := unique_by_url final_recommendations in
  let unique_recs := backfill n unique_recs (best_other b) in
  take n (sorted_desc unique_recs).

(** ** Ranking orchestrator *)

(** The ranking of [_recommend_assessments], from the retrieved pool to
    [results]; [n] is [request.n_results]. *)
Definition rank (all_results : list Assessment) (q : QueryContext) (n : nat)
    : list Scored :=
  let types := normalize_test_types (llm_test_types q) in
  balance types n (score_all q types all_results).

(** What [get_recommendations_local] returns. *)
Definition get_recommendations_local (all_results : list Assessment)
    (q : QueryContext) (n : nat) : list string :=
  map rec_url (rank all_results q n).

(** A text field of the analysis, a JSON object written by the classifier:
    the key may be missing, or hold [null], or hold a string. *)
Inductive Field := Missing | Null | Str (s : string).

(** [analysis.get(key, '').lower()]: the default for a missing key, the
    lowered string for a string, and an [AttributeError] ([None] here) for
    [null], which [get] returns as it is. *)
Definition get_lower (f : Field) : option string :=
  match f with
  | Missing => Some ""
  | Null => None
  | Str s => Some (Text.lower s)
  end.

Record Analysis := {
  a_job_level : Field;
  a_required_skills : list string;
  a_required_test_types : list string;
  a_role : Field
}.

(** The call from the analysis on: the duration constraint of the query
    text, the expanded skills, the lowered job level and role, then the
    ranking of the retrieved pool.  [listing] is [list(expanded)], the
    expanded set in the order of its iteration; [None] is the exception
    that leaves the function. *)
Definition recommend (query : string) (analysis : Analysis)
    (listing : list string) (all_results : list Assessment) (n : nat)
    : option (list Scored) :=
  let duration_constraint := extract_duration_constraint query in
  let expanded_skills := listing in
  match get_lower (a_job_level analysis) with
  | None => None
  | Some llm_job_level =>
      let llm_test_types := a_required_test_types analysis in
      match get_lower (a_role analysis) with
      | None => None
      | Some llm_role =>
          Some (rank all_results
                  {| expanded_skills := expanded_skills;
                     llm_job_level := llm_job_level;
                     llm_test_types := llm_test_types;
                     llm_role := llm_role;
                     duration_constraint := duration_constraint |} n)
      end
  end.

(** ** The scores in the words of the specification

    Second definitions, written from the specification and compared with
    the loops of the source in the theorems. *)

(** The single tier that one skill contributes. *)
Definition skill_tier (r : Assessment) (skill : string) : Qc :=
  if Text.contains skill (Text.lower (name r)) then dec 18 10
  else if Text.mem skill (map (fun s => Text.strip (Text.lower s)) (skills r))
       then dec 12 10
  else if Text.contains skill (Text.lower (description r)) then dec 6 10
  else 0.

(** What one token of the role contributes. *)
Definition role_tier (r : Assessment) (part : string) : Qc :=
  if Text.contains part (Text.lower (name r)) then dec 9 10 else 0.

Definition sum_Qc (l : list Qc) : Qc := foldr Qcplus 0 l.

Definition keyword_score_spec (q : QueryContext) (r : Assessment) : Qc :=
  sum_Qc (map (skill_tier r) (expanded_skills q))
  + sum_Qc (map (role_tier r)
              (filter (fun p => 3 < String.length p)%nat (Text.split (llm_role q)))).

(** [toks] are the white-space-delimited tokens of [s]: [s] is the
    tokens in their order, each a non-empty run of characters that are
    not white space, with white space and nothing else before, between
    and after them. *)
Inductive delimited : string → list string → Prop :=
  | delimited_blank (ws : string) :
      Text.all_chars Text.is_space ws = true → delimited ws []
  | delimited_token (ws tok rest : string) (toks : list string) :
      Text.all_chars Text.is_space ws = true →
      tok ≠ "" →
      Text.all_chars (fun c => negb (Text.is_space c)) tok = true →
      rest = "" ∨ (∃ c t, rest = String c t ∧ Text.is_space c = true) →
      delimited rest toks →
      delimited (ws ++ tok ++ rest) (tok :: toks).

(** The part of the metadata score that depends on the categories only. *)
Definition category_term (types : list string) (r : Assessment) : Qc :=
  (if Text.mem "K" (test_types r) || Text.mem "P" (test_types r)
   then dec 3 10 else 0)
  + (if any_required types (test_types r) then dec 2 10 else 0).

(** The keyword score capped at 3.5. *)
Definition capped (keyword_score : Qc) : Qc :=
  if bool_decide (keyword_score ≤ dec 35 10) then keyword_score else dec 35 10.

Definition final_score_spec (semantic_score keyword_score metadata_score : Qc) : Qc :=
  dec 35 100 * semantic_score
  + dec 45 100 * (capped keyword_score / dec 35 10)
  + dec 20 100 * metadata_score.

(** ** Auxiliary definitions of the proofs *)

(** [descending a b]: [a] may stand before [b] in a result. *)
Definition descending (a b : Scored) : Prop := final_score b ≤ final_score a.

Definition is_k (r : Scored) : bool := Text.mem "K" (test_types (res r)).
Definition is_p (r : Scored) : bool := Text.mem "P" (test_types (res r)).
Definition is_other (r : Scored) : bool := negb (is_k r) && negb (is_p r).

(** The loop that fills one bucket, taken alone. *)
Definition collect (cond : Scored → bool) (l acc : list Scored) : list Scored :=
  fold_left
    (fun acc r =>
       if cond r && negb (url_in (rec_url r) acc) then acc ++ [r] else acc)
    l acc.

(** The round-robin of two lists without a bound: alternately one of each,
    then the rest of the longer one. *)
Fixpoint weave (bk bp : list Scored) : list Scored :=
  match bk, bp with
  | [], _ => bp
  | _, [] => bk
  | a :: bk', b :: bp' => a :: b :: weave bk' bp'
  end.

(** The number of distinct identifiers of a pool. *)
Definition distinct_identifiers (pool : list Assessment) : nat :=
  size (list_to_set (map url pool) : gset string).

(** The context [q] with another required list, or with the expanded
    skills listed in another order. *)
Definition with_types (q : QueryContext) (types : list string) : QueryContext :=
  {| expanded_skills := expanded_skills q; llm_job_level := llm_job_level q;
     llm_test_types := types; llm_role := llm_role q;
     duration_constraint := duration_constraint q |}.


(** ** Inputs of the examples *)

Definition assessment (id nm : string) (types : list string) (sim : Qc) : Assessment :=
  {| name := nm; url := id; description := ""; test_types := types;
     job_level := ""; skills := []; duration := ""; similarity_score := sim |}.

(** The neutral context: no skills, no job level, no role, no duration
    limit, and the required types given. *)
Definition neutral (types : list string) : QueryContext :=
  {| expanded_skills := []; llm_job_level := ""; llm_test_types := types;
     llm_role := ""; duration_constraint := None |}.

Definition java_test : Assessment :=
  assessment "A" "Java Developer Test" ["K"] (dec 8 10).
Definition team_test : Assessment :=
  assessment "B" "Team Collaboration Assessment" ["P"] (dec 6 10).
Definition java_query : QueryContext :=
  {| expanded_skills := ["java"; "j2ee"; "spring"]; llm_job_level := "";
     llm_test_types := ["K"; "P"]; llm_role := "java developer";
     duration_constraint := None |}.

(** A candidate that the skills reach in its name, its skill list and
    its description, and a context whose role has three tokens. *)
Definition spring_test : Assessment :=
  {| name := "Java Developer Test"; url := "S";
     description := "Uses SQL and Java"; test_types := ["K"];
     job_level := ""; skills := [" Spring "; "Java"]; duration := "";
     similarity_score := dec 8 10 |}.
Definition senior_query : QueryContext :=
  {| expanded_skills := ["java"; "spring"; "sql"; "cobol"]; llm_job_level := "";
     llm_test_types := ["K"; "P"]; llm_role := "senior  java developer";
     duration_constraint := None |}.

(** Two candidates of both types, two of type K only, and two of the
    types A and B. *)
Definition both_types_pool : list Assessment :=
  [ assessment "A" "Verbal test" ["K"; "P"] (dec 8 10);
    assessment "B" "Numerical test" ["K"; "P"] (dec 6 10) ].
Definition knowledge_pool : list Assessment :=
  [ assessment "A" "Verbal test" ["K"] (dec 8 10);
    assessment "B" "Numerical test" ["K"] (dec 6 10) ].
Definition ability_pool : list Assessment :=
  [ assessment "X" "Inductive reasoning" ["A"] (dec 5 10);
    assessment "Z" "Situational judgement" ["B"] (dec 6 10) ].

(** ** The classifier, the serving handler and the offline evaluation

    The code around the ranking: [QueryAnalyser.analyse_query], the body
    of [get_recommendations_local] and of [_recommend_assessments] before
    and after the ranking, and the evaluation functions of
    [evaluate_and_predict.py].  The language model, the JSON parser and
    the vector store are parameters. *)

(** [s.replace(old, new)] for a non-empty [old]: the occurrences of [old]
    from left to right, without overlap.  [skip] counts the characters of
    an occurrence that are still to be passed over. *)
Fixpoint replace_from (old new : string) (skip : nat) (s : string) : string :=
  match s with
  | "" => ""
  | String c t =>
      match skip with
      | S k => replace_from old new k t
      | O =>
          if Text.starts_with old s
          then (new ++ replace_from old new (String.length old - 1) t)%string
          else String c (replace_from old new 0 t)
      end
  end.

Definition replace (old new s : string) : string := replace_from old new 0 s.

(** Three backquotes, the fence of a code block. *)
Definition fence : string := String "`" (String "`" (String "`" "")).

(** The cleaning of the model's answer in [analyse_query]. *)
Definition clean_response (text : string) : string :=
  let response_text := Text.strip text in
  if Text.starts_with (fence ++ "json")%string response_text
  then Text.strip (replace fence "" (replace (fence ++ "json")%string "" response_text))
  else if Text.starts_with fence response_text
  then Text.strip (replace fence "" response_text)
  else response_text.

(** What [analyse_query] returns: the search query beside the fields that
    the ranking reads. *)
Record Reply := {
  r_search_query : Field;
  r_analysis : Analysis
}.

(** The dictionary of the two [except] branches of [analyse_query]. *)
Definition fallback_reply (query : string) : Reply :=
  {| r_search_query := Str query;
     r_analysis := {| a_job_level := Null; a_required_skills := [];
                      a_required_test_types := ["K"; "P"];
                      a_role := Str "Unknown" |} |}.

(** [analyse_query]: [generate] is the model applied to the prompt of the
    query, [None] when the call raises; [json_loads] is [json.loads],
    [None] when it raises. *)
Definition analyse_query (generate : string → option string)
    (json_loads : string → option Reply) (query : string) : Reply :=
  match generate query with
  | None => fallback_reply query
  | Some text =>
      match json_loads (clean_response text) with
      | Some analysis => analysis
      | None => fallback_reply query
      end
  end.

(** The dictionary that [get_recommendations_local] uses without an
    analyser. *)
Definition default_reply (query : string) : Reply :=
  {| r_search_query := Str query;
     r_analysis := {| a_job_level := Str ""; a_required_skills := [];
                      a_required_test_types := ["K"; "P"];
                      a_role := Str "" |} |}.

(** The collaborators of a call: the analyser ([None] when it could not be
    loaded), [vector_store.search] with 100 results asked ([None] when it
    raises; its argument is [None] for Python's [None]), and the order in
    which a set of strings is iterated. *)
Record Services := {
  query_analyser : option (string → Reply);
  vector_search : option string → option (list Assessment);
  set_order : gset string → list string
}.

(** [analysis.get('search_query', query)] *)
Definition get_search_query (f : Field) (query : string) : option string :=
  match f with
  | Missing => Some query
  | Null => None
  | Str s => Some s
  end.

(** The body shared by the two callers, from the analysis to [results]. *)
Definition recommend_with (sv : Services) (reply : Reply) (query : string)
    (n : nat) : option (list Scored) :=
  let search_query := get_search_query (r_search_query reply) query in
  let expanded := expand_skills (a_required_skills (r_analysis reply)) in
  match vector_search sv search_query with
  | None => None
  | Some all_results =>
      recommend query (r_analysis reply) (set_order sv expanded) all_results n
  end.

(** [get_recommendations_local(query, n_results)] as a whole; [None] is an
    exception that reaches the caller. *)
Definition get_recommendations_local_call (sv : Services) (query : string)
    (n : nat) : option (list string) :=
  let analysis :=
    match query_analyser sv with
    | Some analyse => analyse query
    | None => default_reply query
    end in
  match recommend_with sv analysis query n with
  | Some results => Some (map rec_url results)
  | None => None
  end.

(** What leaves [_recommend_assessments]: the response, or an
    [HTTPException] with its status code. *)
Inductive HttpResult :=
  | Response (recommendations : list Scored) (count : nat)
             (required_test_types : list string) (expanded : list string)
             (duration : option Z)
  | HTTPException (status_code : nat).

(** The exceptions inside the [try] block. *)
Inductive Raised := RaisedHTTP (status_code : nat) | RaisedOther.

(** The [try] block of [_recommend_assessments]; the analyser of the
    serving path is always there. *)
Definition recommend_try (sv : Services) (analyse : string → Reply)
    (query : string) (n_results : nat) : HttpResult + Raised :=
  if String.eqb query "" || (String.length (Text.strip query) <? 3)%nat
  then inr (RaisedHTTP 400)
  else
    let reply := analyse query in
    match recommend_with sv reply query n_results with
    | None => inr RaisedOther
    | Some results =>
        inl (Response results (length results)
               (normalize_test_types (a_required_test_types (r_analysis reply)))
               (set_order sv (expand_skills (a_required_skills (r_analysis reply))))
               (extract_duration_constraint query))
    end.

(** [except Exception as e: raise HTTPException(status_code=500, ...)]:
    the clause catches every exception of the block, those of class
    [HTTPException] as well. *)
Definition recommend_assessments (sv : Services) (analyse : string → Reply)
    (query : string) (n_results : nat) : HttpResult :=
  match recommend_try sv analyse query n_results with
  | inl response => response
  | inr _ => HTTPException 500
  end.

(** [hits / len(ground_truth_set)] *)
Definition ratio (a b : nat) : Qc :=
  Qc_of_Z (Z.of_nat a) / Qc_of_Z (Z.of_nat b).

(** [calculate_recall_at_k(predicted, ground_truth, k)] *)
Definition calculate_recall_at_k (predicted ground_truth : list string)
    (k : nat) : Qc :=
  match ground_truth with
  | [] => 0
  | _ =>
      let predicted_set : gset string := list_to_set (take k predicted) in
      let ground_truth_set : gset string := list_to_set ground_truth in
      let hits := size (predicted_set ∩ ground_truth_set) in
      ratio hits (size ground_truth_set)
  end.

(** One iteration of the loop of [evaluate_on_training_data]; [predict]
    is [get_recommendations_local] with [n_results=10]. *)
Definition evaluate_step (predict : string → option (list string))
    (recall_scores : list Qc) (item : string * list string) : list Qc :=
  match item.2 with
  | [] => recall_scores
  | _ =>
      match predict item.1 with
      | Some predicted =>
          recall_scores ++ [calculate_recall_at_k predicted item.2 10]
      | None => recall_scores
      end
  end.

(** [sum(l) / len(l) if l else 0.0] *)
Definition mean_or_zero (l : list Qc) : Qc :=
  match l with
  | [] => 0
  | _ => fold_left Qcplus l 0 / Qc_of_Z (Z.of_nat (length l))
  end.

(** [evaluate_on_training_data]: the mean recall over the groups. *)
Definition evaluate_on_training_data (predict : string → option (list string))
    (query_groups : list (string * list string)) : Qc :=
  mean_or_zero (fold_left (evaluate_step predict) query_groups []).

(** The rows that [generate_test_predictions] writes after the header. *)
Definition prediction_rows (predict : string → option (list string))
    (queries : list string) : list (string * string) :=
  fold_left
    (fun all_rows query =>
       match predict query with
       | Some urls =>
           fold_left
             (fun rows url =>
                if String.eqb url "" then rows else rows ++ [(query, url)])
             urls all_rows
       | None => all_rows
       end)
    queries [].

(** Collaborators for the examples: no analyser, a store that answers
    every query with the two tests of the scenario, sets listed in the
    order of [elements]. *)
Definition two_test_services : Services :=
  {| query_analyser := None;
     vector_search := λ _, Some [java_test; team_test];
     set_order := elements |}.

(** The same store behind an analyser whose model never answers. *)
Definition silent_model_services : Services :=
  {| query_analyser := Some (analyse_query (λ _, None) (λ _, None));
     vector_search := λ _, Some [java_test; team_test];
     set_order := elements |}.

(** ** The vector store ([vector_store.py])

    The catalogue entries as [add_assessments] stores them, and as
    [search] gives them back.  The embedding model and the index are
    outside: [search] is modelled from the hits of the index on. *)

(** [sep.join(l)] *)
Fixpoint join (sep : string) (l : list string) : string :=
  match l with
  | [] => ""
  | [x] => x
  | x :: rest => (x ++ sep ++ join sep rest)%string
  end.

Fixpoint split_char_from (c : ascii) (cur : string) (s : string) : list string :=
  match s with
  | "" => [cur]
  | String a t =>
      if Ascii.eqb a c then cur :: split_char_from c "" t
      else split_char_from c (cur ++ String a "")%string t
  end.

(** [s.split(c)] for a separator of one character: the pieces between its
    occurrences, the empty ones too. *)
Definition split_char (c : ascii) (s : string) : list string :=
  split_char_from c "" s.

Definition comma : ascii := ","%char.

(** An entry of the catalogue file, the optional keys read with their
    defaults. *)
Record CatalogEntry := {
  c_name : string;
  c_url : string;
  c_description : string;
  c_test_types : list string;
  c_job_level : string;
  c_skills : list string;
  c_category : string
}.

(** The metadata of an entry in the collection: strings only. *)
Record Metadata := {
  m_name : string;
  m_url : string;
  m_description : string;
  m_test_types : string;
  m_job_level : string;
  m_skills : string;
  m_category : string
}.

(** The metadata that [add_assessments] builds for one entry. *)
Definition to_metadata (e : CatalogEntry) : Metadata :=
  {| m_name := c_name e;
     m_url := c_url e;
     m_description := Text.take 500 (c_description e);
     m_test_types := join ", " (c_test_types e);
     m_job_level := c_job_level e;
     m_skills := join ", " (c_skills e);
     m_category := c_category e |}.

(** [f"assessment_{i}"] *)
Definition assessment_id (i : nat) : string :=
  ("assessment_" ++ NilEmpty.string_of_uint (Nat.to_uint i))%string.

(** The [ids] and [metadatas] that [add_assessments] hands to the
    collection. *)
Definition add_assessments (assessments : list CatalogEntry)
    : list (string * Metadata) :=
  imap (λ i e, (assessment_id i, to_metadata e)) assessments.

(** The integer nearest to [q], the even one of two that are as near. *)
Definition round_half_even (q : Qc) : Z :=
  let f := Qfloor q in
  let r := q - Qc_of_Z f in
  if bool_decide (r < dec 1 2) then f
  else if bool_decide (dec 1 2 < r) then (f + 1)%Z
  else if Z.even f then f else (f + 1)%Z.

(** [round(x, 4)] on the exact value: the nearest multiple of 0.0001. *)
Definition round4 (x : Qc) : Qc :=
  Qc_of_Z (round_half_even (x * Qc_of_Z 10000)) / Qc_of_Z 10000.

(** A dictionary that [search] returns: the keys of [Assessment] and the
    two that the ranking does not read. *)
Record SearchResult := {
  sr_assessment : Assessment;
  sr_category : string;
  sr_distance : Qc
}.

(** The dictionary built for one hit; it has no key [duration]. *)
Definition of_hit (metadata : Metadata) (distance : Qc) : SearchResult :=
  let similarity_score := 1 - distance / 2 in
  {| sr_assessment :=
       {| name := m_name metadata;
          url := m_url metadata;
          description := m_description metadata;
          test_types := split_char comma (m_test_types metadata);
          job_level := m_job_level metadata;
          skills := if String.eqb (m_skills metadata) "" then []
                    else split_char comma (m_skills metadata);
          duration := "";
          similarity_score := round4 similarity_score |};
     sr_category := m_category metadata;
     sr_distance := round4 distance |}.

(** The test of [filter_test_types]; [None] and the empty list filter
    nothing. *)
Definition passes_filter (filter_test_types : option (list string))
    (metadata : Metadata) : bool :=
  match filter_test_types with
  | None | Some [] => true
  | Some types =>
      let assessment_types := split_char comma (m_test_types metadata) in
      existsb (fun t => Text.mem t assessment_types) types
  end.

(** One iteration of the loop of [search]; the flag is set by [break]. *)
Definition search_step (n_results : nat) (filter_test_types : option (list string))
    (state : list SearchResult * bool) (hit : Metadata * Qc)
    : list SearchResult * bool :=
  let (assessments, stopped) := state in
  if stopped then state
  else if negb (passes_filter filter_test_types hit.1) then state
  else
    let assessments := assessments ++ [of_hit hit.1 hit.2] in
    (assessments, (n_results <=? length assessments)%nat).

(** [search], from the hits of the collection on: [hits] are the
    metadata and distances of the [2 * n_results] nearest entries. *)
Definition search (hits : list (Metadata * Qc)) (n_results : nat)
    (filter_test_types : option (list string)) : list SearchResult :=
  let n_results := if (n_results <? 5)%nat then 5%nat else n_results in
  (fold_left (search_step n_results filter_test_types) hits ([], false)).1.

(** An entry as the ranking sees it after the store. *)
Definition retrieved (e : CatalogEntry) (distance : Qc) : Assessment :=
  sr_assessment (of_hit (to_metadata e) distance).

(** No comma in [s]. *)
Definition no_comma (s : string) : Prop :=
  Text.all_chars (fun c => negb (Ascii.eqb c comma)) s = true.

(** Two entries of a catalogue. *)
Definition verbal_entry : CatalogEntry :=
  {| c_name := "Verbal test"; c_url := "A"; c_description := "";
     c_test_types := ["K"; "P"]; c_job_level := ""; c_skills := [];
     c_category := "" |}.
Definition java_entry : CatalogEntry :=
  {| c_name := "Java test"; c_url := "B"; c_description := "";
     c_test_types := ["K"]; c_job_level := ""; c_skills := ["Java"; "Spring"];
     c_category := "" |}.

(** ** Auxiliary definitions for the ranking under a changed context *)




(** The four-candidate pool of the round-robin example and a context
    that requires the type A alone. *)
Definition mixed_pool : list Assessment :=
  [ assessment "K1" "Java" ["K"] (dec 9 10);
    assessment "K2" "Python" ["K"] (dec 8 10);
    assessment "P1" "Teamwork" ["P"] (dec 7 10);
    assessment "P2" "Leadership" ["P"] (dec 6 10) ].

(** No backquote in [s]. *)
Definition no_backquote (s : string) : Prop :=
  Text.all_chars (fun c => negb (Ascii.eqb c "`"%char)) s = true.

(** ** The keyword index ([keyword_search.py]) *)

(** What [\w] matches on ASCII: letters, digits and the underscore. *)
Definition is_word (c : ascii) : bool :=
  (Text.is_digit c
   || ((65 <=? Text.code c) && (Text.code c <=? 90))
   || ((97 <=? Text.code c) && (Text.code c <=? 122))
   || (Text.code c =? 95))%N.

Fixpoint words_from (cur : string) (s : string) : list string :=
  match s with
  | "" => if String.eqb cur "" then [] else [cur]
  | String c t =>
      if is_word c then words_from (cur ++ String c "")%string t
      else if String.eqb cur "" then words_from "" t
      else cur :: words_from "" t
  end.

(** [re.findall(r'\b\w+\b', s)]: the maximal runs of word characters. *)
Definition findall_words (s : string) : list string := words_from "" s.

Definition stop_words : list string :=
  [ "a"; "an"; "the"; "is"; "are"; "was"; "were"; "be"; "been";
    "being"; "have"; "has"; "had"; "do"; "does"; "did"; "will";
    "would"; "should"; "could"; "may"; "might"; "must"; "can";
    "of"; "at"; "by"; "for"; "with"; "about"; "against"; "between";
    "into"; "through"; "during"; "before"; "after"; "above"; "below";
    "to"; "from"; "up"; "down"; "in"; "out"; "on"; "off"; "over";
    "under"; "again"; "further"; "then"; "once"; "here"; "there";
    "when"; "where"; "why"; "how"; "all"; "both"; "each"; "few";
    "more"; "most"; "other"; "some"; "such"; "no"; "nor"; "not";
    "only"; "own"; "same"; "so"; "than"; "too"; "very"; "i"; "me";
    "my"; "we"; "our"; "you"; "your"; "he"; "him"; "his"; "she";
    "her"; "it"; "its"; "they"; "them"; "their"; "what"; "which";
    "who"; "whom"; "this"; "that"; "these"; "those"; "am"; "if";
    "or"; "as"; "until"; "while"; "but"; "because"; "and" ].

(** [extract_query_keywords(query)] *)
Definition extract_query_keywords (query : string) : gset string :=
  let query_lower := Text.lower query in
  let words := findall_words query_lower in
  list_to_set
    (filter (λ w, Text.mem w stop_words = false ∧ (2 < String.length w)%nat) words).

(** [_full_text] and [_keywords] of one entry, as [_build_index] sets
    them. *)
Definition full_text (e : CatalogEntry) : string :=
  Text.lower
    (join " " [ c_name e; c_description e; join " " (c_skills e);
                c_category e; c_job_level e; join " " (c_test_types e) ]).

Definition index_keywords (e : CatalogEntry) : gset string :=
  list_to_set (findall_words (full_text e)).

(** ** The scores in binary64

    The scoring loop computes with Python [float]s, the binary64 numbers
    of IEEE 754.  Here a finite binary64 number is the rational that it
    stands for, and an operation of the source is the exact operation
    followed by [round], the rounding to the nearest binary64 number, to
    the one with the even significand of two that are as near.  The
    functions below are the loops of the signal scorer again, with the
    rounding after every operation; those of the signal scorer above take
    the same sums and products in the rationals.  The similarity and the
    scores of a candidate stay far below the largest binary64 number; the
    one number of the loop that can pass it is the duration constraint of
    the query, in [within_limit]. *)

Module Binary64.

(** [2 ^ k], for a negative [k] too. *)
Definition pow2 (k : Z) : Qc :=
  if (0 <=? k)%Z then Qc_of_Z (2 ^ k) else / Qc_of_Z (2 ^ (- k)).

Definition abs (x : Qc) : Qc := if bool_decide (x < 0) then - x else x.

(** The exponent of a positive [x]: the [e] with [2 ^ e ≤ x < 2 ^ (e + 1)],
    one of the two candidates that the sizes of numerator and denominator
    leave. *)
Definition exponent (x : Qc) : Z :=
  let k := (Z.log2 (Qnum x) - Z.log2 (Zpos (Qden x)))%Z in
  if bool_decide (pow2 k ≤ x) then k else (k - 1)%Z.

(** The nearest binary64 number: the nearest multiple of the unit in the
    last place, which is [2 ^ (e - 52)] for 53 significant bits, and
    [2 ^ -1074] below [2 ^ -1022]. *)
Definition round (x : Qc) : Qc :=
  if bool_decide (x = 0) then 0
  else
    let e := Z.max (exponent (abs x)) (-1022) in
    let ulp := pow2 (e - 52) in
    Qc_of_Z (round_half_even (x / ulp)) * ulp.

(** The rounded number is out of the range of binary64, where the
    operation answers with an infinity. *)
Definition is_inf (x : Qc) : bool := bool_decide (pow2 1024 ≤ abs x).

Definition add (x y : Qc) : Qc := round (x + y).
Definition mul (x y : Qc) : Qc := round (x * y).
Definition div (x y : Qc) : Qc := round (x / y).

(** The decimal literal [n/d] of the source, read as a [float]. *)
Definition literal (n : Z) (d : positive) : Qc := round (dec n d).

(** One iteration of [for skill in expanded_skills]. *)
Definition skill_step (r : Assessment) (keyword_score : Qc) (skill : string) : Qc :=
  let assessment_name := Text.lower (name r) in
  let assessment_skills := map (fun s => Text.strip (Text.lower s)) (skills r) in
  if Text.contains skill assessment_name then add keyword_score (literal 18 10)
  else if Text.mem skill assessment_skills then add keyword_score (literal 12 10)
  else if Text.contains skill (Text.lower (description r))
       then add keyword_score (literal 6 10)
  else keyword_score.

(** One iteration of [for part in role_parts]. *)
Definition role_step (r : Assessment) (keyword_score : Qc) (part : string) : Qc :=
  if Text.contains part (Text.lower (name r)) then add keyword_score (literal 9 10)
  else keyword_score.

Definition compute_keyword_score (q : QueryContext) (r : Assessment) : Qc :=
  let keyword_score := fold_left (skill_step r) (expanded_skills q) 0 in
  if String.eqb (llm_role q) "" then keyword_score
  else fold_left (role_step r) (role_parts (llm_role q)) keyword_score.

(** [res_duration <= duration_constraint * 1.2].  The integer
    [duration_constraint] is converted to a [float] for the product,
    which raises [OverflowError] ([None] here) when it is out of range;
    the product of two [float]s does not raise, it may be an infinity;
    the comparison of the integer [res_duration] with it is exact. *)
Definition within_limit (res_duration duration_constraint : Z) : option bool :=
  let converted := round (Qc_of_Z duration_constraint) in
  if is_inf converted then None
  else
    let limit := mul converted (literal 12 10) in
    if is_inf limit then Some (bool_decide (0 < limit))
    else Some (bool_decide (Qc_of_Z res_duration ≤ limit)).

(** The metadata block; [None] is the [OverflowError] of the product. *)
Definition compute_metadata_score (q : QueryContext) (types : list string)
    (r : Assessment) : option Qc :=
  let metadata_score := 0 in
  let res_types := test_types r in
  let has_k := Text.mem "K" res_types in
  let has_p := Text.mem "P" res_types in
  let metadata_score :=
    if has_k || has_p then
      let metadata_score := add metadata_score (literal 3 10) in
      if any_required types res_types then add metadata_score (literal 2 10)
      else metadata_score
    else if any_required types res_types then add metadata_score (literal 2 10)
    else metadata_score in
  let metadata_score :=
    if negb (String.eqb (llm_job_level q) "")
       && Text.contains (llm_job_level q) (Text.lower (job_level r))
    then add metadata_score (literal 3 10) else metadata_score in
  match duration_constraint q with
  | Some dc =>
      if (dc =? 0)%Z then Some metadata_score
      else
        let res_duration := parse_duration (duration r) in
        match within_limit res_duration dc with
        | None => None
        | Some true => Some (add metadata_score (literal 4 10))
        | Some false => Some metadata_score
        end
  | None => Some metadata_score
  end.

(** The body of the scoring loop for one result; the similarity that the
    store returned is a [float]. *)
Definition score (q : QueryContext) (types : list string) (r : Assessment)
    : option Scored :=
  let semantic_score := round (similarity_score r) in
  let keyword_score := compute_keyword_score q r in
  match compute_metadata_score q types r with
  | None => None
  | Some metadata_score =>
      let final_score :=
        add (add (mul semantic_score (literal 35 100))
                 (div (mul (py_min keyword_score (literal 35 10)) (literal 45 100))
                      (literal 35 10)))
            (mul metadata_score (literal 20 100)) in
      Some {| res := r; final_score := final_score;
              keyword_score := keyword_score; metadata_score := metadata_score |}
  end.

(** The scoring loop: the first exception leaves it. *)
Definition score_all (q : QueryContext) (types : list string)
    (all_results : list Assessment) : option (list Scored) :=
  mapM (score q types) all_results.

(** The ranking, with the balancer of the scored candidates as above: it
    compares the final scores and does not compute with them. *)
Definition rank (all_results : list Assessment) (q : QueryContext) (n : nat)
    : option (list Scored) :=
  let types := normalize_test_types (llm_test_types q) in
  balance types n <$> score_all q types all_results.

Definition get_recommendations_local (all_results : list Assessment)
    (q : QueryContext) (n : nat) : option (list string) :=
  map rec_url <$> rank all_results q n.

End Binary64.

(** A scored candidate with [min(keyword_score, 3.5)], the part of the
    keyword score that enters the final score, in the place of the
    keyword score. *)
Definition cap_keyword (s : Scored) : Scored :=
  {| res := res s; final_score := final_score s;
     keyword_score := py_min (keyword_score s) (dec 35 10);
     metadata_score := metadata_score s |}.

(** The sum of [a] times 1.8, [b] times 1.2 and [c] times 0.6, added in
    this order in binary64. *)
Definition tier_sum (a b c : nat) : Qc :=
  fold_left Binary64.add
    (replicate a (Binary64.literal 18 10) ++ replicate b (Binary64.literal 12 10)
     ++ replicate c (Binary64.literal 6 10)) 0.

(** A candidate that three skills reach in its name, its skill list and
    its description. *)
Definition kotlin_test : Assessment :=
  {| name := "Kotlin Developer Test"; url := "K";
     description := "Builds Android apps"; test_types := ["K"];
     job_level := ""; skills := ["Gradle"]; duration := "";
     similarity_score := dec 8 10 |}.

(** * Properties *)

(** ** Text and regular expression lemmas *)

Section TextFacts.
Import Text.
Local Open Scope string_scope.
Local Arguments String.append !_ _ / : simpl nomatch.

Lemma lower_app (a b : string) : lower (a ++ b) = lower a ++ lower b.
Proof. induction a as [|c a IH]; simpl; [done | by rewrite IH]. Qed.


Lemma lower_char_idemp (c : ascii) : lower_char (lower_char c) = lower_char c.
Proof. destruct c as [[] [] [] [] [] [] [] []]; vm_compute; reflexivity. Qed.

Lemma lower_idemp (s : string) : lower (lower s) = lower s.
Proof. induction s as [|c s IH]; simpl; [done | by rewrite lower_char_idemp, IH]. Qed.


Lemma search_cons units c t :
  Re.search units (String c t)
  = match Re.match_at units (String c t) with
    | Some g => Some g
    | None => Re.search units t
    end.
Proof. reflexivity. Qed.


(** *** The matcher and the pattern *)

Lemma app_assoc_s (a b c : string) : (a ++ b) ++ c = a ++ b ++ c.
Proof. induction a as [|x a IH]; simpl; [done | by f_equal]. Qed.

Lemma app_nil_r_s (s : string) : (s ++ "")%string = s.
Proof. induction s as [|c s IH]; simpl; [done | by f_equal]. Qed.

Lemma take_drop_s (k : nat) (s : string) : take k s ++ drop k s = s.
Proof.
  revert s. induction k as [|k IH]; intros [|c s]; simpl; try done.
  by f_equal.
Qed.

Lemma take_app_length (g t : string) : take (String.length g) (g ++ t) = g.
Proof.
  induction g as [|c g IH]; simpl; [by destruct t | by f_equal].
Qed.

Lemma drop_app_length (g t : string) : drop (String.length g) (g ++ t) = t.
Proof. induction g as [|c g IH]; cbn; done. Qed.

Lemma take_nonempty (k : nat) (s : string) :
  (0 < k ≤ String.length s)%nat → take k s ≠ "".
Proof. destruct k, s; cbn; intros; (lia || done). Qed.

Lemma all_chars_take (p : ascii → bool) (k : nat) (s : string) :
  (k ≤ String.length (take_while p s))%nat → all_chars p (take k s) = true.
Proof.
  revert k. induction s as [|c s IH]; intros [|k]; cbn; try done.
  destruct (p c) eqn:Hc; cbn; [|lia]. intros Hk. apply IH. lia.
Qed.

Lemma take_while_length_le (p : ascii → bool) (s : string) :
  (String.length (take_while p s) ≤ String.length s)%nat.
Proof. induction s as [|c s IH]; cbn; [done|]. destruct (p c); cbn; lia. Qed.

Lemma take_while_app_ge (p : ascii → bool) (g t : string) :
  all_chars p g = true →
  (String.length g ≤ String.length (take_while p (g ++ t)))%nat.
Proof.
  induction g as [|c g IH]; cbn; [lia|].
  intros [Hc Hg]%andb_true_iff. rewrite Hc. cbn. specialize (IH Hg). lia.
Qed.

Lemma starts_with_spec (u s : string) :
  starts_with u s = true ↔ ∃ rest, s = u ++ rest.
Proof.
  revert s. induction u as [|a u IH]; intros s; cbn.
  - split; [by exists s | done].
  - destruct s as [|b s]; [split; [done | by intros [? ?]]|].
    destruct (Ascii.eqb_spec a b) as [->|Hne].
    + rewrite IH. split; intros [rest Hr]; exists rest; congruence.
    + split; [done | intros [rest Hr]; congruence].
Qed.

Lemma try_units_spec units s :
  Re.try_units units s = true ↔ ∃ u rest, u ∈ units ∧ s = u ++ rest.
Proof.
  unfold Re.try_units. rewrite existsb_exists. split.
  - intros (u & Hu%list_elem_of_In & (rest & ?)%starts_with_spec). by exists u, rest.
  - intros (u & rest & Hu & Hs). exists u. split; [by apply list_elem_of_In|].
    apply starts_with_spec. by exists rest.
Qed.

Lemma try_spaces_spec units j s :
  Re.try_spaces units j s = true
  ↔ ∃ j', (j' ≤ j)%nat ∧ Re.try_units units (drop j' s) = true.
Proof.
  induction j as [|j IH]; cbn [Re.try_spaces].
  - rewrite orb_false_r. split; [by exists 0%nat|].
    intros (j' & Hj & ?). by replace j' with 0%nat in * by lia.
  - rewrite orb_true_iff, IH. split.
    + intros [?|(j' & ? & ?)]; [by exists (S j) | exists j'; split; [lia | done]].
    + intros (j' & Hj & Hu). destruct (decide (j' = S j)) as [->|?]; [by left|].
      right. exists j'. split; [lia | done].
Qed.

Lemma try_digits_Some units k s g :
  Re.try_digits units k s = Some g →
  ∃ k', (0 < k' ≤ k)%nat ∧ g = take k' s
        ∧ Re.try_spaces units
            (String.length (take_while is_space (drop k' s))) (drop k' s) = true.
Proof.
  induction k as [|k IH]; cbn [Re.try_digits]; [done|].
  destruct (Re.try_spaces _ _ _) eqn:Hsp.
  - intros [= <-]. exists (S k). split; [lia | done].
  - intros (k' & ? & ? & ?)%IH. exists k'. split; [lia | done].
Qed.

Lemma try_digits_None units k s :
  Re.try_digits units k s = None →
  ∀ k', (0 < k' ≤ k)%nat →
        Re.try_spaces units
          (String.length (take_while is_space (drop k' s))) (drop k' s) = false.
Proof.
  induction k as [|k IH]; cbn [Re.try_digits]; [intros; lia|].
  destruct (Re.try_spaces _ _ _) eqn:Hsp; [done|].
  intros Hk k' Hk'. destruct (decide (k' = S k)) as [->|?]; [done|].
  apply IH; [done | lia].
Qed.

(** A match found at the head of [s] is one of the pattern. *)
Lemma match_at_Some units s g :
  Re.match_at units s = Some g →
  ∃ ws u rest,
    s = g ++ ws ++ u ++ rest ∧ g ≠ ""
    ∧ all_chars is_digit g = true ∧ all_chars is_space ws = true ∧ u ∈ units.
Proof.
  unfold Re.match_at. intros (k & Hk & -> & Hsp)%try_digits_Some.
  apply try_spaces_spec in Hsp as (j & Hj & Hu).
  apply try_units_spec in Hu as (u & rest & Hu & Hrest).
  exists (take j (drop k s)), u, rest. repeat split.
  - by rewrite <- Hrest, !take_drop_s.
  - apply take_nonempty. pose proof (take_while_length_le is_digit s). lia.
  - apply all_chars_take. lia.
  - by apply all_chars_take.
  - done.
Qed.

(** Where the matcher finds nothing, the pattern has no match at the head. *)
Lemma match_at_None units s :
  Re.match_at units s = None → ¬ Re.matches_head units s.
Proof.
  unfold Re.match_at. intros Hnone (g & ws & u & rest & -> & Hg & Hdig & Hsp & Hu).
  pose proof (try_digits_None _ _ _ Hnone (String.length g)) as Hk.
  rewrite drop_app_length in Hk.
  assert (Hfalse : Re.try_spaces units
            (String.length (take_while is_space (ws ++ u ++ rest)))
            (ws ++ u ++ rest) = false).
  { apply Hk. split; [destruct g; cbn; [done | lia]|].
    by apply take_while_app_ge. }
  assert (Htrue : Re.try_spaces units
            (String.length (take_while is_space (ws ++ u ++ rest)))
            (ws ++ u ++ rest) = true).
  { apply try_spaces_spec. exists (String.length ws). split.
    - by apply take_while_app_ge.
    - rewrite drop_app_length. apply try_units_spec. by exists u, rest. }
  congruence.
Qed.

(** [search] finds a match of the pattern, and no match starts before it. *)
Lemma search_Some units s g :
  Re.search units s = Some g →
  ∃ pre t, s = pre ++ t ∧ Re.match_at units t = Some g
           ∧ ∀ pre' t', s = pre' ++ t' →
               (String.length pre' < String.length pre)%nat →
               ¬ Re.matches_head units t'.
Proof.
  induction s as [|c s IH].
  - done.
  - rewrite search_cons. destruct (Re.match_at units (String c s)) eqn:Hm.
    + intros [= ->]. exists "", (String c s).
      split; [done|]. split; [done|]. cbn. intros; lia.
    + intros (pre & t & -> & Ht & Hleft)%IH.
      exists (String c pre), t. split; [done|]. split; [done|].
      intros [|c' pre'] t' Heq Hlen.
      * cbn in Heq. subst t'. by apply match_at_None.
      * cbn in Heq. injection Heq as <- Heq. apply (Hleft pre' t' Heq).
        cbn in Hlen. lia.
Qed.

Lemma search_None units s : Re.search units s = None ↔ ¬ Re.occurs units s.
Proof.
  split.
  - induction s as [|c s IH].
    + intros _ (pre & t & Heq & Ht). destruct pre, t; try done.
      by apply (match_at_None units "").
    + rewrite search_cons. destruct (Re.match_at units (String c s)) eqn:Hm; [done|].
      intros Hs (pre & t & Heq & Ht). destruct pre as [|c' pre].
      * cbn in Heq. subst t. by apply (match_at_None _ _ Hm).
      * cbn in Heq. injection Heq as <- ->. apply (IH Hs). by exists pre, t.
  - intros Hocc. destruct (Re.search units s) as [g|] eqn:Hs; [|done].
    exfalso. apply Hocc.
    apply search_Some in Hs as (pre & t & -> & Ht & _).
    exists pre, t. split; [done|].
    apply match_at_Some in Ht as (ws & u & rest & ? & ? & ? & ? & ?).
    by exists g, ws, u, rest.
Qed.

Lemma int_of_digits_go_nonneg (s : string) (acc : Z) :
  (0 ≤ acc)%Z →
  (0 ≤ (fix go (acc : Z) (s : string) : Z :=
          match s with
          | "" => acc
          | String c t => go (10 * acc + Z.of_N (code c - 48))%Z t
          end) acc s)%Z.
Proof.
  revert acc. induction s as [|c s IH]; intros acc Hacc; [done|].
  apply IH. lia.
Qed.

Lemma int_of_digits_nonneg (s : string) : (0 ≤ int_of_digits s)%Z.
Proof. by apply int_of_digits_go_nonneg. Qed.


End TextFacts.

(** ** Duration parser *)

Section Durations.
Local Open Scope string_scope.
Local Open Scope Z_scope.

(** C8, as stated, fails in its instance: the query [2 hr or 1 hour]
    contains [1 hour] and has no minutes pattern, and the answer is 120,
    for the hours pattern matches at [2 hr], the leftmost place, first. *)
Lemma one_hour_counterexample :
  ¬ (∀ q : string,
       Text.contains "1 hour" q = true →
       Re.search ["min"; "minute"; "minutes"] (Text.lower q) = None →
       extract_duration_constraint q = Some 60).
Proof.
  intros H. specialize (H "2 hr or 1 hour" eq_refl eq_refl).
  vm_compute in H. discriminate H.
Qed.



(** C9, as stated, fails: the text [0 minutes] has a minute match, the sum
    of its matches is 0, and the answer is the sentinel 999. *)
Lemma parse_duration_zero_sum_counterexample :
  ¬ (∀ s : string,
       let t := Text.lower s in
       let hour_match := Re.search ["hr"; "hour"] t in
       let min_match := Re.search ["min"; "minute"] t in
       (hour_match ≠ None ∨ min_match ≠ None) →
       parse_duration s = matched 60 hour_match + matched 1 min_match).
Proof.
  intros H. specialize (H "0 minutes"). cbv zeta in H.
  assert (Hm : Re.search ["min"; "minute"] (Text.lower "0 minutes") ≠ None)
    by (vm_compute; discriminate).
  specialize (H (or_intror Hm)). vm_compute in H. discriminate H.
Qed.

(** C9, amended.  [parse_duration] answers with the sum of the hour match
    times 60 and the minute match when that sum is positive, and with the
    sentinel 999 when the sum is zero, as it is when the text has no
    occurrence of digits, white space and a unit; its answer is always
    positive.  The two texts of the scenario
    give 45 and 999, and the scoring loop keeps every candidate whatever
    its duration is. *)
Theorem parse_duration_sum_or_sentinel (s : string) :
  let t := Text.lower s in
  let hour_match := Re.search ["hr"; "hour"] t in
  let min_match := Re.search ["min"; "minute"] t in
  let total := matched 60 hour_match + matched 1 min_match in
  (0 < total → parse_duration s = total) ∧
  (total = 0 → parse_duration s = 999) ∧
  (¬ Re.occurs ["hr"; "hour"] t → ¬ Re.occurs ["min"; "minute"] t →
   parse_duration s = 999) ∧
  0 < parse_duration s ∧
  parse_duration "Approximate completion time: 45 minutes" = 45 ∧
  parse_duration "" = 999 ∧
  (∀ q types pool, map res (score_all q types pool) = pool).
Proof.
  intros t hour_match min_match total.
  assert (Hnonneg : 0 ≤ total).
  { unfold total. destruct hour_match, min_match; cbn [matched];
      repeat match goal with
             | |- context [Text.int_of_digits ?g] =>
                 pose proof (int_of_digits_nonneg g);
                 generalize dependent (Text.int_of_digits g); intros
             end; lia. }
  assert (Hdef : parse_duration s = if 0 <? total then total else 999).
  { unfold parse_duration. destruct (String.eqb_spec s "") as [->|_].
    - reflexivity.
    - fold t. fold hour_match min_match. unfold total.
      destruct hour_match, min_match; cbn [matched];
        rewrite ?Z.add_0_l, ?Z.add_0_r, ?Z.mul_1_r; reflexivity. }
  repeat split.
  - intros Hpos. rewrite Hdef. by apply Z.ltb_lt in Hpos as ->.
  - intros Hz. rewrite Hdef, Hz. reflexivity.
  - intros Hh%search_None Hm%search_None. fold hour_match in Hh.
    fold min_match in Hm. rewrite Hdef. unfold total. rewrite Hh, Hm. reflexivity.
  - rewrite Hdef. destruct (Z.ltb_spec 0 total); lia.
  - intros q types pool. unfold score_all. induction pool as [|a pool IH]; [done|].
    cbn. by rewrite IH.
Qed.

(** [1 hour 30 minutes] has both matches and a positive sum. *)
Lemma parse_duration_sum_or_sentinel_witness :
  parse_duration "1 hour 30 minutes" = 90.
Proof.
  exact (proj1 (parse_duration_sum_or_sentinel "1 hour 30 minutes") eq_refl).
Defined.

End Durations.

(** ** Skill expander *)

Section Expansion.
Local Open Scope string_scope.

Lemma mem_spec (x : string) (l : list string) : Text.mem x l = true ↔ x ∈ l.
Proof.
  unfold Text.mem. rewrite existsb_exists. split.
  - intros (y & Hy & ->%String.eqb_eq). by apply list_elem_of_In.
  - intros Hx. exists x. split; [by apply list_elem_of_In | apply String.eqb_refl].
Qed.

(** Every alias of the table is in lower case already. *)
Lemma synonyms_lower :
  Forall (λ item : string * list string,
            Forall (λ y, Text.lower y = y) item.2) SKILL_SYNONYMS.
Proof. apply (bool_decide_unpack _). vm_compute. reflexivity. Qed.

(** No alias belongs to two groups. *)
Lemma synonyms_disjoint :
  Forall (λ i : string * list string,
    Forall (λ j : string * list string,
      Forall (λ y, y ∈ j.2 → i.2 = j.2) i.2) SKILL_SYNONYMS) SKILL_SYNONYMS.
Proof. apply (bool_decide_unpack _). vm_compute. reflexivity. Qed.

Lemma elem_of_add_synonyms_in (table : list (string * list string))
    (sk x : string) (E : gset string) :
  x ∈ fold_left
        (fun expanded (item : string * list string) =>
           if Text.mem sk (snd item) then expanded ∪ list_to_set (snd item)
           else expanded) table E
  ↔ x ∈ E ∨ ∃ item, item ∈ table ∧ sk ∈ item.2 ∧ x ∈ item.2.
Proof.
  revert E. induction table as [|it table IH]; intros E; cbn [fold_left].
  - split; [by left | intros [?|(? & []%elem_of_nil & _)]; done].
  - rewrite IH. setoid_rewrite elem_of_cons.
    destruct (Text.mem sk it.2) eqn:Hmem.
    + apply mem_spec in Hmem. rewrite elem_of_union, elem_of_list_to_set.
      naive_solver.
    + assert (sk ∉ it.2) by (rewrite <- mem_spec; congruence). naive_solver.
Qed.

Lemma elem_of_add_synonyms (sk x : string) (E : gset string) :
  x ∈ add_synonyms sk E ↔ x ∈ E ∨ synonym_of sk x.
Proof. apply elem_of_add_synonyms_in. Qed.

Lemma elem_of_expand_from (skills : list string) (E : gset string) (x : string) :
  x ∈ fold_left
        (fun expanded skill =>
           add_synonyms (Text.lower skill) (expanded ∪ {[ Text.lower skill ]}))
        skills E
  ↔ x ∈ E ∨ ∃ s, s ∈ skills ∧ (x = Text.lower s ∨ synonym_of (Text.lower s) x).
Proof.
  revert E. induction skills as [|s skills IH]; intros E; cbn [fold_left].
  - split; [by left | intros [?|(? & []%elem_of_nil & _)]; done].
  - rewrite IH, elem_of_add_synonyms, elem_of_union, elem_of_singleton.
    setoid_rewrite elem_of_cons. naive_solver.
Qed.

(** What the expansion holds: the lowered input skills and, for each, the
    aliases of every group that lists it. *)
Lemma elem_of_expand_skills (skills : list string) (x : string) :
  x ∈ expand_skills skills
  ↔ ∃ s, s ∈ skills ∧ (x = Text.lower s ∨ synonym_of (Text.lower s) x).
Proof.
  unfold expand_skills. rewrite elem_of_expand_from. split; [|by right].
  intros [[]%not_elem_of_empty|?]; done.
Qed.

Lemma synonym_lower (sk x : string) : synonym_of sk x → Text.lower x = x.
Proof.
  intros (item & Hitem & _ & Hx).
  pose proof synonyms_lower as H. rewrite Forall_forall in H.
  specialize (H item Hitem). rewrite Forall_forall in H. by apply H.
Qed.

Lemma synonym_trans (a b c : string) :
  synonym_of a b → synonym_of b c → synonym_of a c.
Proof.
  intros (i & Hi & Hai & Hbi) (j & Hj & Hbj & Hcj).
  pose proof synonyms_disjoint as H. rewrite Forall_forall in H.
  specialize (H i Hi). rewrite Forall_forall in H.
  specialize (H j Hj). rewrite Forall_forall in H.
  specialize (H b Hbi Hbj). exists i. rewrite H. rewrite H in Hai. done.
Qed.

Lemma expand_skills_lower (skills : list string) (x : string) :
  x ∈ expand_skills skills → Text.lower x = x.
Proof.
  rewrite elem_of_expand_skills. intros (s & _ & [->|Hsyn]).
  - apply lower_idemp.
  - by eapply synonym_lower.
Qed.

(** C4.  Expanding an expanded set changes nothing: whatever the order
    [l] in which [list(expanded)] lists the set [expand_skills S], the
    expansion of [l] is that set again.  The expansion holds exactly the
    case-folded input skills and, for each of them, the aliases of every
    group whose list has it, whether or not it is the key of the group. *)
Theorem expand_skills_idempotent (S : list string) :
  (∀ l : list string,
     list_to_set l = expand_skills S → expand_skills l = expand_skills S) ∧
  expand_skills (elements (expand_skills S)) = expand_skills S ∧
  (∀ x, x ∈ expand_skills S ↔
        ∃ s, s ∈ S ∧
          (x = Text.lower s ∨
           ∃ item, item ∈ SKILL_SYNONYMS ∧ Text.lower s ∈ item.2 ∧ x ∈ item.2)).
Proof.
  assert (Hidem : ∀ l : list string,
    list_to_set l = expand_skills S → expand_skills l = expand_skills S).
  { intros l Hl. apply set_eq. intros x. split.
    - rewrite (elem_of_expand_skills l). intros (y & Hy & Hx).
      assert (HyX : y ∈ expand_skills S) by (rewrite <- Hl; set_solver).
      rewrite (expand_skills_lower _ _ HyX) in Hx. destruct Hx as [->|Hsyn]; [done|].
      apply elem_of_expand_skills in HyX as (s & Hs & [->|Hsy]);
        apply elem_of_expand_skills; exists s; split; try done; right; [done|].
      by eapply synonym_trans.
    - intros Hx. apply elem_of_expand_skills. exists x. split.
      + rewrite <- Hl in Hx. set_solver.
      + left. symmetry. by eapply expand_skills_lower. }
  split; [exact Hidem|]. split.
  - apply Hidem. apply list_to_set_elements_L.
  - intros x. apply elem_of_expand_skills.
Qed.

(** The expansion of [Java], listed in another order than its own. *)
Lemma expand_skills_idempotent_witness :
  expand_skills ["spring"; "java"; "j2ee"] = expand_skills ["Java"].
Proof.
  apply (proj1 (expand_skills_idempotent ["Java"]) ["spring"; "java"; "j2ee"]).
  vm_compute. reflexivity.
Defined.

End Expansion.

(** ** Signal scorer *)

Section Scorer.
Local Open Scope Qc_scope.

Lemma dec_35_10_nonzero : dec 35 10 ≠ 0.
Proof. intros H. apply (f_equal this) in H. vm_compute in H. discriminate H. Qed.

Lemma skill_step_tier r kw skill : skill_step r kw skill = kw + skill_tier r skill.
Proof.
  unfold skill_step, skill_tier.
  repeat match goal with |- context [if ?b then _ else _] => destruct b end;
    try reflexivity.
  by rewrite Qcplus_0_r.
Qed.

Lemma role_step_tier r kw part : role_step r kw part = kw + role_tier r part.
Proof.
  unfold role_step, role_tier. destruct (Text.contains _ _); [done|].
  by rewrite Qcplus_0_r.
Qed.

(** A loop that adds one term per element computes the sum of the terms. *)
Lemma fold_left_add (A : Type) (step : Qc → A → Qc) (term : A → Qc) :
  (∀ kw x, step kw x = kw + term x) →
  ∀ l kw, fold_left step l kw = kw + sum_Qc (map term l).
Proof.
  intros Hstep l. induction l as [|x l IH]; intros kw; cbn.
  - by rewrite Qcplus_0_r.
  - rewrite IH, Hstep. by rewrite Qcplus_assoc.
Qed.

Lemma compute_keyword_score_spec q r :
  compute_keyword_score q r = keyword_score_spec q r.
Proof.
  unfold compute_keyword_score, keyword_score_spec, role_parts.
  rewrite (fold_left_add _ _ _ (skill_step_tier r)), Qcplus_0_l.
  destruct (String.eqb_spec (llm_role q) "") as [->|_].
  - cbn. by rewrite Qcplus_0_r.
  - by rewrite (fold_left_add _ _ _ (role_step_tier r)).
Qed.

(** [split()] answers with the white-space-delimited tokens. *)
Lemma split_from_spaces (ws rest : string) :
  Text.all_chars Text.is_space ws = true →
  Text.split_from "" (ws ++ rest) = Text.split_from "" rest.
Proof.
  induction ws as [|c ws IH]; [done|]. cbn [Text.all_chars].
  intros [Hc Hws]%andb_true_iff.
  change (String c ws ++ rest)%string with (String c (ws ++ rest)).
  cbn [Text.split_from]. rewrite Hc. cbn [String.eqb]. by apply IH.
Qed.

Lemma split_from_token (cur tok rest : string) :
  Text.all_chars (fun c => negb (Text.is_space c)) tok = true →
  Text.split_from cur (tok ++ rest) = Text.split_from (cur ++ tok) rest.
Proof.
  revert cur. induction tok as [|c tok IH]; intros cur.
  - intros _. by rewrite app_nil_r_s.
  - cbn [Text.all_chars]. intros [Hc Htok]%andb_true_iff.
    apply negb_true_iff in Hc.
    change (String c tok ++ rest)%string with (String c (tok ++ rest)).
    cbn [Text.split_from]. rewrite Hc, IH by done.
    by rewrite app_assoc_s.
Qed.

Lemma split_delimited (s : string) (toks : list string) :
  delimited s toks → Text.split s = toks.
Proof.
  unfold Text.split.
  induction 1 as [ws Hws|ws tok rest toks Hws Hne Htok Hrest _ IH].
  - rewrite <- (app_nil_r_s ws), split_from_spaces by done. done.
  - rewrite split_from_spaces, split_from_token by done.
    change ("" ++ tok)%string with tok.
    assert (Heq : String.eqb tok "" = false) by (by apply String.eqb_neq).
    destruct Hrest as [->|(c & t & -> & Hc)].
    + inversion IH; subst. cbn [Text.split_from] in *. by rewrite Heq.
    + cbn [Text.split_from] in *. rewrite Hc in *. rewrite Heq.
      cbn [String.eqb] in IH. by rewrite IH.
Qed.

(** C6.  The keyword score that the loops compute is the sum, over the
    expanded skills, of the one tier each skill reaches (1.8 in the name,
    else 1.2 in the skill list, else 0.6 in the description, else 0) plus
    0.9 for every token of the role longer than 3 characters that occurs
    in the name, the tokens being the white-space-delimited ones; it is
    the score attached to the scored candidate. *)
Theorem keyword_score_is_tier_sum (q : QueryContext) (types : list string)
    (r : Assessment) :
  keyword_score (score q types r)
  = sum_Qc (map (skill_tier r) (expanded_skills q))
    + sum_Qc (map (role_tier r)
                (filter (fun p => 3 < String.length p)%nat
                   (Text.split (llm_role q))))
  ∧ (∀ toks, delimited (llm_role q) toks →
       keyword_score (score q types r)
       = sum_Qc (map (skill_tier r) (expanded_skills q))
         + sum_Qc (map (role_tier r)
                     (filter (fun p => 3 < String.length p)%nat toks))).
Proof.
  assert (H : keyword_score (score q types r) = keyword_score_spec q r).
  { cbn [score keyword_score]. apply compute_keyword_score_spec. }
  split; [exact H|].
  intros toks Htoks. rewrite H. unfold keyword_score_spec.
  by rewrite (split_delimited _ _ Htoks).
Qed.

(** Four skills and a role of three tokens: 1.8 for [java], in the name
    (and in the skill list and the description, which do not count then),
    1.2 for [spring], 0.6 for [sql], nothing for [cobol], and 0.9 for
    either of [java] and [developer], nothing for [senior]. *)
Lemma keyword_score_is_tier_sum_witness :
  keyword_score (score senior_query ["K"; "P"] spring_test) = dec 54 10.
Proof.
  rewrite (proj2 (keyword_score_is_tier_sum senior_query ["K"; "P"] spring_test)
             ["senior"; "java"; "developer"]).
  - apply Qc_is_canon. vm_compute. reflexivity.
  - apply (delimited_token "" "senior" "  java developer"); try done.
    { right. by exists " "%char, " java developer". }
    apply (delimited_token "  " "java" " developer"); try done.
    { right. by exists " "%char, "developer". }
    apply (delimited_token " " "developer" ""); try done.
    { by left. }
    by apply delimited_blank.
Defined.

Lemma py_min_capped (kw : Qc) : py_min kw (dec 35 10) = capped kw.
Proof.
  unfold py_min, capped. do 2 case_bool_decide; try done.
  - by apply Qcle_not_lt in H0.
  - apply Qcnot_lt_le in H. apply Qcnot_le_lt in H0.
    by apply Qcle_not_lt in H.
Qed.

Lemma final_score_formula q types r :
  final_score (score q types r)
  = final_score_spec (similarity_score r) (keyword_score (score q types r))
      (metadata_score (score q types r)).
Proof.
  cbn [score final_score keyword_score metadata_score]. unfold final_score_spec.
  rewrite py_min_capped. field. apply dec_35_10_nonzero.
Qed.

(** C2, as stated, fails: under the neutral context a candidate of type
    [K] has the metadata score 0.5, for its category alone. *)
Lemma graceful_degradation_counterexample :
  ¬ (∀ (q : QueryContext) (r : Assessment),
       expanded_skills q = [] → llm_job_level q = "" →
       duration_constraint q = None →
       let s := score q (normalize_test_types (llm_test_types q)) r in
       keyword_score s = 0 ∧ metadata_score s = 0
       ∧ final_score s = dec 35 100 * similarity_score r).
Proof.
  intros H.
  destruct (H (neutral ["K"; "P"]) java_test eq_refl eq_refl eq_refl)
    as (_ & Hmeta & _).
  apply (f_equal this) in Hmeta. vm_compute in Hmeta. discriminate Hmeta.
Qed.

(** C2, amended.  With no skills, no job level and no duration limit, the
    metadata score of a candidate is its category term alone (0.3 for a
    candidate of type K or P, and 0.2 when one of its types is required),
    so it is 0 for a candidate that has neither; when the context has no
    role either, the keyword score is 0 and the final score is 0.35 times
    the semantic similarity plus 0.20 times the category term. *)
Theorem degraded_scores (q : QueryContext) (r : Assessment) :
  expanded_skills q = [] → llm_job_level q = "" →
  duration_constraint q = None →
  let types := normalize_test_types (llm_test_types q) in
  let s := score q types r in
  metadata_score s = category_term types r ∧
  (Text.mem "K" (test_types r) = false → Text.mem "P" (test_types r) = false →
   any_required types (test_types r) = false → metadata_score s = 0) ∧
  (llm_role q = "" → keyword_score s = 0) ∧
  (llm_role q = "" →
   final_score s
   = dec 35 100 * similarity_score r + dec 20 100 * category_term types r).
Proof.
  intros Hskills Hlevel Hdur types s.
  assert (Hmeta : metadata_score s = category_term types r).
  { cbn [s score metadata_score]. unfold compute_metadata_score, category_term.
    rewrite Hlevel, Hdur. cbn [String.eqb negb andb].
    destruct (_ || _), (any_required _ _); rewrite ?Qcplus_0_l, ?Qcplus_0_r; done. }
  assert (Hkw : llm_role q = "" → keyword_score s = 0).
  { intros Hrole. cbn [s score keyword_score]. unfold compute_keyword_score.
    by rewrite Hskills, Hrole. }
  repeat split; try done.
  - intros Hk Hp Hany. rewrite Hmeta. unfold category_term.
    rewrite Hk, Hp, Hany. cbn. by rewrite Qcplus_0_r.
  - intros Hrole. unfold s at 1. rewrite final_score_formula. fold s.
    rewrite (Hkw Hrole), Hmeta. unfold final_score_spec.
    assert (Hcap : capped 0 = 0) by reflexivity.
    rewrite Hcap. field. apply dec_35_10_nonzero.
Qed.

(** The Java test under the neutral context: 0.35 × 0.8 + 0.20 × 0.5. *)
Lemma degraded_scores_witness :
  final_score (score (neutral []) (normalize_test_types []) java_test)
  = dec 35 100 * dec 8 10 + dec 20 100 * category_term ["K"; "P"] java_test.
Proof.
  exact (proj2 (proj2 (proj2
    (degraded_scores (neutral []) java_test eq_refl eq_refl eq_refl))) eq_refl).
Defined.

End Scorer.

(** ** Lists of scored candidates: sorting, buckets, dictionary, backfill *)

Section Balancer.
Local Open Scope Qc_scope.
Local Open Scope list_scope.

Implicit Types (l bk bp bo acc : list Scored) (r x : Scored) (n : nat).

(** *** The stable sort *)

Lemma insert_desc_Permutation x l : insert_desc x l ≡ₚ x :: l.
Proof.
  induction l as [|y l IH]; cbn; [done|].
  case_bool_decide; [done|]. by rewrite IH, Permutation_swap.
Qed.

Lemma sorted_desc_Permutation l : sorted_desc l ≡ₚ l.
Proof.
  induction l as [|x l IH]; cbn; [done|].
  by rewrite insert_desc_Permutation, IH.
Qed.

Lemma sorted_desc_length l : length (sorted_desc l) = length l.
Proof. by rewrite sorted_desc_Permutation. Qed.

Lemma insert_desc_Sorted x l :
  Sorted descending l → Sorted descending (insert_desc x l).
Proof.
  induction 1 as [|y l Hl IH Hhd]; cbn.
  - repeat constructor.
  - case_bool_decide as Hle.
    + repeat constructor; done.
    + constructor; [done|].
      assert (Hyx : descending y x).
      { unfold descending. apply Qclt_le_weak. by apply Qcnot_le_lt. }
      destruct Hhd as [|z l' Hz]; cbn; [by constructor|].
      case_bool_decide; by constructor.
Qed.

Lemma sorted_desc_Sorted l : Sorted descending (sorted_desc l).
Proof.
  induction l as [|x l IH]; cbn; [constructor | by apply insert_desc_Sorted].
Qed.

Lemma Sorted_take n l : Sorted descending l → Sorted descending (take n l).
Proof.
  intros Hl. revert n. induction Hl as [|y l Hl IH Hhd]; intros [|n]; cbn;
    try constructor; [done|].
  destruct Hhd, n; cbn; by constructor.
Qed.

Lemma Sorted_adjacent l i a b :
  Sorted descending l → l !! i = Some a → l !! S i = Some b →
  final_score b ≤ final_score a.
Proof.
  intros Hl. revert i. induction Hl as [|y l Hl IH Hhd]; intros i Ha Hb; [done|].
  destruct i as [|i]; cbn in *.
  - injection Ha as ->. destruct Hhd; cbn in Hb; [done|]. by injection Hb as ->.
  - by eapply IH.
Qed.

(** *** The buckets *)

Lemma url_in_spec (id : string) l : url_in id l = true ↔ id ∈ map rec_url l.
Proof. apply mem_spec. Qed.

Lemma url_in_false (id : string) l : url_in id l = false ↔ id ∉ map rec_url l.
Proof. rewrite <- url_in_spec. by destruct (url_in id l). Qed.

Lemma make_buckets_collect l (b : Buckets) :
  let b' := fold_left bucket_step l b in
  best_k b' = collect is_k l (best_k b)
  ∧ best_p b' = collect is_p l (best_p b)
  ∧ best_other b' = collect is_other l (best_other b).
Proof.
  revert b. induction l as [|r l IH]; intros b; [done|].
  cbn [fold_left collect]. destruct (IH (bucket_step b r)) as (Hk & Hp & Ho).
  cbv zeta. rewrite Hk, Hp, Ho. done.
Qed.

Lemma collect_elem_of cond l acc x :
  x ∈ collect cond l acc → x ∈ acc ∨ (x ∈ l ∧ cond x = true).
Proof.
  revert acc. induction l as [|r l IH]; intros acc; cbn [collect fold_left].
  - by left.
  - intros [Hx|[Hx Hc]]%IH.
    + destruct (cond r) eqn:Hcr; cbn [andb] in Hx.
      * destruct (negb _); [|by left].
        apply elem_of_app in Hx as [?| ->%list_elem_of_singleton]; [by left|].
        right. split; [left | done].
      * by left.
    + right. split; [by right | done].
Qed.

Lemma NoDup_urls_snoc acc r :
  NoDup (map rec_url acc) → url_in (rec_url r) acc = false →
  NoDup (map rec_url (acc ++ [r])).
Proof.
  intros Hnd Hr%url_in_false. rewrite map_app. apply NoDup_app.
  split; [done|]. split.
  - intros id Hid ->%list_elem_of_singleton. done.
  - apply NoDup_singleton.
Qed.

Lemma collect_NoDup cond l acc :
  NoDup (map rec_url acc) → NoDup (map rec_url (collect cond l acc)).
Proof.
  revert acc. induction l as [|r l IH]; intros acc Hnd; [done|].
  cbn [collect fold_left]. apply IH.
  destruct (cond r); cbn [andb]; [|done].
  destruct (url_in (rec_url r) acc) eqn:Hin; cbn [negb]; [done|].
  by apply NoDup_urls_snoc.
Qed.

(** Where identifiers are unique, a bucket is a filter of the sorted list. *)
Lemma collect_filter cond l acc :
  NoDup (map rec_url (acc ++ l)) →
  collect cond l acc = acc ++ filter (λ r, cond r = true) l.
Proof.
  revert acc. induction l as [|r l IH]; intros acc Hnd; cbn [collect fold_left].
  - by rewrite app_nil_r.
  - assert (Hr : url_in (rec_url r) acc = false).
    { apply url_in_false. rewrite map_app in Hnd.
      apply NoDup_app in Hnd as (_ & Hdisj & _). intros Hin.
      apply (Hdisj _ Hin). left. }
    rewrite Hr. cbn [negb]. rewrite andb_true_r.
    change (fold_left _ l ?a) with (collect cond l a).
    destruct (cond r) eqn:Hc.
    + rewrite IH by (by rewrite <- app_assoc).
      rewrite filter_cons_True by done. by rewrite <- app_assoc.
    + rewrite filter_cons_False by congruence. apply IH.
      rewrite map_app in Hnd |- *. cbn in Hnd.
      rewrite <- Permutation_middle in Hnd. by apply NoDup_cons in Hnd as [_ ?].
Qed.

(** *** The dictionary that removes duplicates *)

Lemma dict_set_keys (d : list (string * Scored)) k v :
  map fst (dict_set d k v)
  = if decide (k ∈ map fst d) then map fst d else map fst d ++ [k].
Proof.
  induction d as [|[k' v'] d IH]; cbn.
  - rewrite decide_False; [done | apply not_elem_of_nil].
  - destruct (String.eqb_spec k' k) as [->|Hne]; cbn.
    + rewrite decide_True; [done | left].
    + rewrite IH. destruct (decide (k ∈ map fst d)) as [Hin|Hnin].
      * rewrite decide_True; [done | by right].
      * rewrite decide_False; [done|]. by intros [?|?]%elem_of_cons.
Qed.

Lemma dict_set_elem_of (d : list (string * Scored)) k v kv :
  kv ∈ dict_set d k v → kv ∈ d ∨ kv = (k, v).
Proof.
  induction d as [|[k' v'] d IH]; cbn.
  - intros ->%list_elem_of_singleton. by right.
  - destruct (String.eqb_spec k' k) as [->|Hne].
    + intros [->|?]%elem_of_cons; [by right | left; by right].
    + intros [->|[?|?]%IH]%elem_of_cons; [left; left | left; by right | by right].
Qed.

Lemma dict_set_fresh (d : list (string * Scored)) k v :
  k ∉ map fst d → dict_set d k v = d ++ [(k, v)].
Proof.
  induction d as [|[k' v'] d IH]; cbn; [done|].
  intros Hk. destruct (String.eqb_spec k' k) as [->|Hne].
  - exfalso. apply Hk. left.
  - rewrite IH; [done|]. intros ?. apply Hk. by right.
Qed.

Lemma dict_of_elem_of l (d : list (string * Scored)) kv :
  kv ∈ fold_left (fun d r => dict_set d (rec_url r) r) l d →
  kv ∈ d ∨ (kv.2 ∈ l ∧ kv.1 = rec_url kv.2).
Proof.
  revert d. induction l as [|r l IH]; intros d; cbn [fold_left]; [by left|].
  intros [[?| ->]%dict_set_elem_of|[? ?]]%IH.
  - by left.
  - right. split; [left | done].
  - right. split; [by right | done].
Qed.

Lemma dict_of_keys_NoDup l (d : list (string * Scored)) :
  NoDup (map fst d) →
  NoDup (map fst (fold_left (fun d r => dict_set d (rec_url r) r) l d)).
Proof.
  revert d. induction l as [|r l IH]; intros d Hnd; cbn [fold_left]; [done|].
  apply IH. rewrite dict_set_keys. case_decide; [done|].
  apply NoDup_app. split; [done|]. split; [|apply NoDup_singleton].
  by intros id Hid ->%list_elem_of_singleton.
Qed.

Lemma unique_by_url_elem_of l x : x ∈ unique_by_url l → x ∈ l.
Proof.
  unfold unique_by_url. intros ([k v] & -> & Hkv)%list_elem_of_fmap.
  apply dict_of_elem_of in Hkv as [[]%not_elem_of_nil|[? _]]. done.
Qed.

Lemma unique_by_url_NoDup l : NoDup (map rec_url (unique_by_url l)).
Proof.
  unfold unique_by_url.
  pose proof (dict_of_keys_NoDup l [] (NoDup_nil_2 (A:=string))) as Hnd.
  assert (Hkeys : ∀ d : list (string * Scored),
            Forall (λ kv, kv.1 = rec_url kv.2) d →
            map rec_url (map snd d) = map fst d).
  { induction 1 as [|[k v] d Hkv _ IH]; cbn in *; [done | by rewrite IH, Hkv]. }
  rewrite Hkeys; [done|]. apply Forall_forall. intros kv Hkv.
  apply dict_of_elem_of in Hkv as [[]%not_elem_of_nil|[_ ?]]. done.
Qed.

Lemma dict_of_fresh l (d : list (string * Scored)) :
  NoDup (map fst d ++ map rec_url l) →
  fold_left (fun d r => dict_set d (rec_url r) r) l d
  = d ++ map (λ r, (rec_url r, r)) l.
Proof.
  revert d. induction l as [|r l IH]; intros d Hnd; cbn [fold_left].
  - by rewrite app_nil_r.
  - cbn in Hnd. rewrite dict_set_fresh.
    + rewrite IH; [by rewrite <- app_assoc|].
      rewrite map_app. cbn. by rewrite <- app_assoc.
    + apply NoDup_app in Hnd as (_ & Hdisj & _). intros Hin.
      apply (Hdisj _ Hin). left.
Qed.

Lemma unique_by_url_id l : NoDup (map rec_url l) → unique_by_url l = l.
Proof.
  intros Hnd. unfold unique_by_url. rewrite dict_of_fresh by done.
  cbn. rewrite map_map. cbn. apply map_id.
Qed.

(** *** The backfill *)

Lemma backfill_fold_elem_of n bo u x :
  x ∈ fold_left (backfill_step n) bo u → x ∈ u ∨ x ∈ bo.
Proof.
  revert u. induction bo as [|r bo IH]; intros u; cbn [fold_left]; [by left|].
  intros [Hx|?]%IH; [|right; by right].
  unfold backfill_step in Hx.
  destruct (n <=? length u)%nat; [by left|].
  destruct (negb _); [|by left].
  apply elem_of_app in Hx as [?| ->%list_elem_of_singleton]; [by left|].
  right. left.
Qed.

Lemma backfill_fold_NoDup n bo u :
  NoDup (map rec_url u) → NoDup (map rec_url (fold_left (backfill_step n) bo u)).
Proof.
  revert u. induction bo as [|r bo IH]; intros u Hnd; cbn [fold_left]; [done|].
  apply IH. unfold backfill_step.
  destruct (n <=? length u)%nat; [done|].
  destruct (url_in (rec_url r) u) eqn:Hin; cbn [negb]; [done|].
  by apply NoDup_urls_snoc.
Qed.

Lemma backfill_elem_of n u bo x : x ∈ backfill n u bo → x ∈ u ∨ x ∈ bo.
Proof.
  unfold backfill. destruct (length u <? n)%nat; [|by left].
  apply backfill_fold_elem_of.
Qed.

Lemma backfill_NoDup n u bo :
  NoDup (map rec_url u) → NoDup (map rec_url (backfill n u bo)).
Proof.
  unfold backfill. destruct (length u <? n)%nat; [|done].
  apply backfill_fold_NoDup.
Qed.

(** With fresh identifiers in [bo], the backfill stops at [n] entries or
    at the end of [bo]. *)
Lemma backfill_fold_length n bo u :
  NoDup (map rec_url (u ++ bo)) → (length u ≤ n)%nat →
  length (fold_left (backfill_step n) bo u) = (n `min` (length u + length bo))%nat.
Proof.
  revert u. induction bo as [|r bo IH]; intros u Hnd Hlen; cbn [fold_left].
  - cbn. lia.
  - unfold backfill_step at 2. destruct (Nat.leb_spec n (length u)).
    + rewrite IH; [cbn; lia| |done].
      rewrite map_app in Hnd |- *. cbn in Hnd.
      rewrite <- Permutation_middle in Hnd. by apply NoDup_cons in Hnd as [_ ?].
    + assert (Hr : url_in (rec_url r) u = false).
      { apply url_in_false. rewrite map_app in Hnd.
        apply NoDup_app in Hnd as (_ & Hdisj & _). intros Hin.
        apply (Hdisj _ Hin). left. }
      rewrite Hr. cbn [negb]. rewrite IH.
      * rewrite length_app. cbn. lia.
      * by rewrite <- app_assoc.
      * rewrite length_app. cbn. lia.
Qed.

Lemma backfill_length n u bo :
  NoDup (map rec_url (u ++ bo)) → (length u ≤ n)%nat →
  length (backfill n u bo) = (n `min` (length u + length bo))%nat.
Proof.
  intros Hnd Hlen. unfold backfill. destruct (Nat.ltb_spec (length u) n).
  - by apply backfill_fold_length.
  - lia.
Qed.

(** *** The round-robin *)

Lemma take_S_lookup (l : list Scored) m :
  take (S m) l = take m l ++ option_list (l !! m).
Proof.
  destruct (l !! m) as [x|] eqn:Hm; cbn.
  - by apply take_S_r.
  - apply lookup_ge_None in Hm. rewrite app_nil_r, !take_ge by lia. done.
Qed.

Lemma weave_nil_r bk : weave bk [] = bk.
Proof. by destruct bk. Qed.

Lemma weave_take_S bk bp m :
  weave (take (S m) bk) (take (S m) bp)
  = weave (take m bk) (take m bp)
    ++ option_list (bk !! m) ++ option_list (bp !! m).
Proof.
  revert bk bp. induction m as [|m IH]; intros bk bp.
  - destruct bk, bp; done.
  - destruct bk as [|a bk], bp as [|b bp].
    + done.
    + change (weave (take (S (S m)) []) ?l) with l.
      change (weave (take (S m) []) ?l) with l.
      by rewrite (take_S_lookup _ (S m)).
    + rewrite !take_nil, !weave_nil_r.
      rewrite (take_S_lookup _ (S m)). cbn. by rewrite app_nil_r.
    + change (take (S ?k) (?y :: ?l)) with (y :: take k l).
      cbn [weave]. rewrite IH. done.
Qed.

Lemma take_snoc_step n (W : list Scored) r :
  (if (length (take n W) <? n)%nat then take n W ++ [r] else take n W)
  = take n (W ++ [r]).
Proof.
  rewrite length_take. destruct (Nat.ltb_spec (n `min` length W) n).
  - rewrite !take_ge; [done | rewrite length_app; cbn; lia | lia].
  - rewrite take_app_le by lia. done.
Qed.

Lemma interleave_step_take n bk bp (W : list Scored) m :
  interleave_step n bk bp (take n W) m
  = take n (W ++ option_list (bk !! m) ++ option_list (bp !! m)).
Proof.
  unfold interleave_step.
  destruct (bk !! m) as [a|], (bp !! m) as [b|]; cbn [option_list app].
  - rewrite take_snoc_step, take_snoc_step. by rewrite <- app_assoc.
  - by rewrite take_snoc_step.
  - by rewrite take_snoc_step.
  - by rewrite app_nil_r.
Qed.

Lemma interleave_prefix n bk bp m :
  fold_left (interleave_step n bk bp) (seq 0 m) []
  = take n (weave (take m bk) (take m bp)).
Proof.
  induction m as [|m IH].
  - cbn. by destruct n.
  - rewrite seq_S, fold_left_app, IH. cbn [fold_left].
    by rewrite interleave_step_take, weave_take_S.
Qed.

(** The loop over the indices is the round-robin cut at [n] entries. *)
Lemma interleave_weave n bk bp : interleave n bk bp = take n (weave bk bp).
Proof.
  unfold interleave. rewrite interleave_prefix.
  rewrite (take_ge bk), (take_ge bp) by lia. done.
Qed.

Lemma weave_Permutation bk bp : weave bk bp ≡ₚ bk ++ bp.
Proof.
  revert bp. induction bk as [|a bk IH]; intros [|b bp]; cbn [weave].
  - done.
  - done.
  - by rewrite app_nil_r.
  - rewrite IH. cbn. by rewrite <- Permutation_middle.
Qed.

Lemma select_elem_of types n (b : Buckets) x :
  x ∈ select types n b → x ∈ best_k b ∨ x ∈ best_p b.
Proof.
  unfold select. destruct (select_branch types).
  - rewrite interleave_weave. intros Hx%subseteq_take.
    rewrite weave_Permutation in Hx. by apply elem_of_app.
  - intros Hx%subseteq_take. by left.
  - intros Hx%subseteq_take. by right.
  - intros [Hx%subseteq_take|Hx%subseteq_take]%elem_of_app; [by left | by right].
Qed.

(** *** The whole balancer *)

Lemma make_buckets_k l : best_k (make_buckets l) = collect is_k l [].
Proof.
  pose proof (make_buckets_collect l
    {| best_k := []; best_p := []; best_other := [] |}) as H.
  exact (proj1 H).
Qed.

Lemma make_buckets_p l : best_p (make_buckets l) = collect is_p l [].
Proof.
  pose proof (make_buckets_collect l
    {| best_k := []; best_p := []; best_other := [] |}) as H.
  exact (proj1 (proj2 H)).
Qed.

Lemma make_buckets_other l : best_other (make_buckets l) = collect is_other l [].
Proof.
  pose proof (make_buckets_collect l
    {| best_k := []; best_p := []; best_other := [] |}) as H.
  exact (proj2 (proj2 H)).
Qed.

Lemma collect_nil_elem_of cond l x : x ∈ collect cond l [] → x ∈ l.
Proof. intros [[]%not_elem_of_nil|[? _]]%collect_elem_of. done. Qed.

Lemma balance_elem_of types n l x : x ∈ balance types n l → x ∈ l.
Proof.
  unfold balance. intros Hx%subseteq_take.
  rewrite sorted_desc_Permutation in Hx.
  rewrite <- (sorted_desc_Permutation l).
  apply backfill_elem_of in Hx as [Hx%unique_by_url_elem_of|Hx].
  - apply select_elem_of in Hx as [Hx|Hx].
    + rewrite make_buckets_k in Hx. by eapply collect_nil_elem_of.
    + rewrite make_buckets_p in Hx. by eapply collect_nil_elem_of.
  - rewrite make_buckets_other in Hx. by eapply collect_nil_elem_of.
Qed.

Lemma NoDup_urls_take n l :
  NoDup (map rec_url l) → NoDup (map rec_url (take n l)).
Proof.
  intros Hnd. eapply sublist_NoDup; [exact Hnd|].
  apply (fmap_sublist rec_url), sublist_take.
Qed.

Lemma balance_NoDup types n l : NoDup (map rec_url (balance types n l)).
Proof.
  unfold balance. apply NoDup_urls_take.
  rewrite sorted_desc_Permutation.
  apply backfill_NoDup, unique_by_url_NoDup.
Qed.

Lemma balance_Sorted types n l : Sorted descending (balance types n l).
Proof. unfold balance. apply Sorted_take, sorted_desc_Sorted. Qed.

Lemma balance_length_le types n l : (length (balance types n l) ≤ n)%nat.
Proof. unfold balance. rewrite length_take. lia. Qed.

(** Candidates that are not of both types fall into exactly one bucket. *)
Lemma three_way_Permutation l :
  (∀ x, x ∈ l → ¬ (is_k x = true ∧ is_p x = true)) →
  l ≡ₚ filter (λ r, is_k r = true) l
       ++ filter (λ r, is_p r = true) l
       ++ filter (λ r, is_other r = true) l.
Proof.
  induction l as [|x l IH]; intros Hex; [done|].
  assert (Hx : ¬ (is_k x = true ∧ is_p x = true)) by (apply Hex; left).
  specialize (IH (λ y Hy, Hex y (list_elem_of_further _ _ _ Hy))).
  rewrite !filter_cons.
  assert (Ho : is_other x = negb (is_k x) && negb (is_p x)) by done.
  destruct (decide (is_k x = true)) as [Hk|Hk%not_true_is_false],
    (decide (is_p x = true)) as [Hp|Hp%not_true_is_false],
    (decide (is_other x = true)) as [Hoo|Hoo];
    rewrite Hk, Hp in Ho; cbn in Ho; try congruence.
  - exfalso. by apply Hx.
  - cbn. by rewrite <- IH.
  - cbn [app]. rewrite <- Permutation_middle. by rewrite <- IH.
  - rewrite app_assoc, <- Permutation_middle, <- app_assoc. by rewrite <- IH.
Qed.

(** The length of the balanced list when identifiers are unique, both
    types are required and no candidate is of both types. *)
Lemma balance_length_both types n l :
  NoDup (map rec_url l) →
  select_branch types = BothRequired →
  (∀ x, x ∈ l → ¬ (is_k x = true ∧ is_p x = true)) →
  length (balance types n l) = (n `min` length l)%nat.
Proof.
  intros Hnd Hboth Hex. unfold balance, select. rewrite Hboth.
  set (S := sorted_desc l).
  assert (HS : S ≡ₚ l) by apply sorted_desc_Permutation.
  assert (HndS : NoDup (map rec_url S)) by (by rewrite HS).
  rewrite make_buckets_k, make_buckets_p, make_buckets_other.
  rewrite !collect_filter by done. cbn [app].
  set (bk := filter (λ r, is_k r = true) S).
  set (bp := filter (λ r, is_p r = true) S).
  set (bo := filter (λ r, is_other r = true) S).
  assert (Hpart : S ≡ₚ bk ++ bp ++ bo).
  { apply three_way_Permutation. intros x Hx. apply Hex. by rewrite <- HS. }
  assert (Hndw : NoDup (map rec_url (weave bk bp ++ bo))).
  { by rewrite weave_Permutation, <- app_assoc, <- Hpart. }
  rewrite interleave_weave.
  assert (Hfin : NoDup (map rec_url (take n (weave bk bp) ++ bo))).
  { eapply sublist_NoDup; [exact Hndw|].
    apply (fmap_sublist rec_url), sublist_app; [apply sublist_take | done]. }
  rewrite unique_by_url_id.
  2:{ rewrite map_app in Hfin. by apply NoDup_app in Hfin as (? & _). }
  rewrite length_take, sorted_desc_length.
  rewrite backfill_length; [|done|rewrite length_take; lia].
  rewrite length_take, weave_Permutation, length_app.
  rewrite <- HS, Hpart, !length_app. lia.
Qed.

End Balancer.

(** ** The ranking call *)

Section Ranking.
Local Open Scope Qc_scope.
Local Open Scope list_scope.

Lemma score_all_urls q types pool :
  map rec_url (score_all q types pool) = map url pool.
Proof. unfold score_all. rewrite map_map. done. Qed.

Lemma score_all_elem_of q types pool e :
  e ∈ score_all q types pool → res e ∈ pool ∧ e = score q types (res e).
Proof.
  unfold score_all. intros (a & -> & Ha)%list_elem_of_fmap. done.
Qed.

Lemma rank_elem_of pool q n e :
  e ∈ rank pool q n →
  res e ∈ pool ∧ e = score q (normalize_test_types (llm_test_types q)) (res e).
Proof. unfold rank. intros He%balance_elem_of. by apply score_all_elem_of. Qed.

Lemma rank_NoDup pool q n : NoDup (map rec_url (rank pool q n)).
Proof. apply balance_NoDup. Qed.

Lemma NoDup_subseteq_size (l k : list string) :
  NoDup l → (∀ x, x ∈ l → x ∈ k) →
  (length l ≤ size (list_to_set k : gset string))%nat.
Proof.
  intros Hnd Hsub. rewrite <- (size_list_to_set (C:=gset string) l) by done.
  apply subseteq_size. intros x. rewrite !elem_of_list_to_set. apply Hsub.
Qed.

(** C7.  A result has no identifier twice, its scores never increase from
    one entry to the next, and it has at most [n] entries; the list of
    identifiers returned by the evaluation path has no repetition
    either. *)
Theorem rank_well_formed (pool : list Assessment) (q : QueryContext) (n : nat) :
  NoDup (map rec_url (rank pool q n))
  ∧ (∀ i a b, rank pool q n !! i = Some a → rank pool q n !! S i = Some b →
       final_score b ≤ final_score a)
  ∧ (length (rank pool q n) ≤ n)%nat
  ∧ NoDup (get_recommendations_local pool q n).
Proof.
  repeat split.
  - apply rank_NoDup.
  - intros i a b. apply Sorted_adjacent, balance_Sorted.
  - apply balance_length_le.
  - apply rank_NoDup.
Qed.

(** The scenario of the specification, the pool given in the other order:
    the team test comes second, with the lower score. *)
Lemma rank_well_formed_witness :
  final_score (score java_query ["K"; "P"] team_test)
  ≤ final_score (score java_query ["K"; "P"] java_test).
Proof.
  apply (proj1 (proj2 (rank_well_formed [team_test; java_test] java_query 2)) 0%nat);
    vm_compute; reflexivity.
Defined.

(** C1, as stated, fails: when only P is required, candidates of type K
    alone are not selected, however many the pool has. *)
Lemma rank_length_counterexample :
  ¬ (∀ (pool : list Assessment) (q : QueryContext) (n : nat),
       length (rank pool q n) = (n `min` distinct_identifiers pool)%nat).
Proof.
  intros H. specialize (H knowledge_pool (neutral ["P"]) 2%nat).
  vm_compute in H. discriminate H.
Qed.

(** C1, amended.  A result never has more than [min n d] entries, [d] the
    number of distinct identifiers of the pool; it has exactly that many
    when the identifiers of the pool are unique, both K and P are required
    (after the addition of P) and no candidate is of both types. *)
Theorem rank_length (pool : list Assessment) (q : QueryContext) (n : nat) :
  (length (rank pool q n) ≤ n `min` distinct_identifiers pool)%nat
  ∧ (NoDup (map url pool) →
     select_branch (normalize_test_types (llm_test_types q)) = BothRequired →
     (∀ a, a ∈ pool →
        ¬ (Text.mem "K" (test_types a) = true ∧ Text.mem "P" (test_types a) = true)) →
     length (rank pool q n) = (n `min` distinct_identifiers pool)%nat).
Proof.
  split.
  - apply Nat.min_glb; [apply balance_length_le|].
    rewrite <- (length_map rec_url). apply NoDup_subseteq_size; [apply rank_NoDup|].
    intros id (e & -> & He)%list_elem_of_fmap.
    apply rank_elem_of in He as [He _]. apply list_elem_of_fmap. by exists (res e).
  - intros Hnd Hboth Hex. unfold rank. rewrite balance_length_both.
    + unfold score_all, distinct_identifiers.
      rewrite length_map, size_list_to_set by done. by rewrite length_map.
    + by rewrite score_all_urls.
    + done.
    + intros x [Hx ->]%score_all_elem_of. by apply Hex.
Qed.

(** The scenario of the specification: two candidates, one of each type. *)
Lemma rank_length_witness :
  length (rank [java_test; team_test] java_query 2) = 2%nat.
Proof.
  apply (proj2 (rank_length [java_test; team_test] java_query 2)).
  - apply (bool_decide_unpack _). vm_compute. reflexivity.
  - reflexivity.
  - apply Forall_forall. repeat constructor; vm_compute; intros [? ?]; discriminate.
Defined.

(** C5.  The final score of a candidate is 0.35 times its semantic
    similarity, taken as retrieval gave it, plus 0.45 times the keyword
    score capped at 3.5 and divided by 3.5, plus 0.20 times the metadata
    score; every entry of a result is a candidate of the pool that carries
    the score so computed. *)
Theorem final_score_weighted_blend (q : QueryContext) (types : list string)
    (r : Assessment) :
  (let s := score q types r in
   final_score s
   = dec 35 100 * similarity_score r
     + dec 45 100
       * ((if bool_decide (keyword_score s ≤ dec 35 10)
           then keyword_score s else dec 35 10) / dec 35 10)
     + dec 20 100 * metadata_score s)
  ∧ (∀ pool n e, e ∈ rank pool q n →
       res e ∈ pool
       ∧ final_score e
         = dec 35 100 * similarity_score (res e)
           + dec 45 100
             * ((if bool_decide (keyword_score e ≤ dec 35 10)
                 then keyword_score e else dec 35 10) / dec 35 10)
           + dec 20 100 * metadata_score e).
Proof.
  split.
  - apply final_score_formula.
  - intros pool n e [Hres He]%rank_elem_of. split; [done|].
    rewrite He at 1. rewrite final_score_formula, <- He. done.
Qed.

(** The first entry of the scenario's result: the Java test, with
    0.35 × 0.8 + 0.45 × (3.5 / 3.5) + 0.20 × 0.5. *)
Lemma final_score_weighted_blend_witness :
  let e := score java_query ["K"; "P"] java_test in
  res e ∈ [java_test; team_test]
  ∧ final_score e
    = dec 35 100 * similarity_score (res e)
      + dec 45 100
        * ((if bool_decide (keyword_score e ≤ dec 35 10)
            then keyword_score e else dec 35 10) / dec 35 10)
      + dec 20 100 * metadata_score e.
Proof.
  refine (proj2 (final_score_weighted_blend java_query [] java_test)
    [java_test; team_test] 2%nat (score java_query ["K"; "P"] java_test) _).
  apply (list_elem_of_lookup_2 _ 0%nat). vm_compute. reflexivity.
Defined.

(** *** The required types *)

Lemma mem_app (x : string) (l k : list string) :
  Text.mem x (l ++ k) = Text.mem x l || Text.mem x k.
Proof. apply existsb_app. Qed.

Lemma normalize_adds_personality (T : list string) :
  Text.mem "K" T = true → Text.mem "P" T = false →
  normalize_test_types T = T ++ ["P"].
Proof.
  intros HK HP. destruct T as [|t T]; [done|].
  unfold normalize_test_types. by rewrite HK, HP.
Qed.

Lemma normalize_keeps_personality (T : list string) :
  Text.mem "P" T = true → normalize_test_types T = T.
Proof.
  intros HP. destruct T as [|t T]; [done|].
  unfold normalize_test_types. rewrite HP. by rewrite andb_false_r.
Qed.


Lemma never_knowledge_only (T : list string) :
  select_branch (normalize_test_types T) ≠ KnowledgeOnly.
Proof.
  destruct T as [|t T]; [done|].
  destruct (Text.mem "P" (t :: T)) eqn:HP.
  - rewrite normalize_keeps_personality by done.
    unfold select_branch. rewrite HP.
    destruct (Text.mem "K" (t :: T)); cbn; congruence.
  - destruct (Text.mem "K" (t :: T)) eqn:HK.
    + rewrite (normalize_adds_personality _ HK HP).
      unfold select_branch. rewrite !mem_app, HK, HP. cbn. congruence.
    + unfold normalize_test_types. rewrite HK. cbn [andb].
      unfold select_branch. rewrite HK, HP. cbn. congruence.
Qed.

(** The scores read the required types through the normalised list only. *)
Lemma rank_with_types pool q T n :
  rank pool (with_types q T) n
  = balance (normalize_test_types T) n
      (score_all q (normalize_test_types T) pool).
Proof. reflexivity. Qed.

(** C3, as stated, fails: with the required types K and A, a candidate of
    type A gets the 0.2 of a required type and is ranked first; with K and
    P it does not and comes after the other candidate. *)
Lemma knowledge_only_counterexample :
  ¬ (∀ (pool : list Assessment) (q : QueryContext) (n : nat),
       Text.mem "K" (llm_test_types q) = true →
       Text.mem "P" (llm_test_types q) = false →
       rank pool q n = rank pool (with_types q ["K"; "P"]) n).
Proof.
  intros H.
  specialize (H ability_pool (neutral ["K"; "A"]) 1%nat eq_refl eq_refl).
  apply (f_equal (map rec_url)) in H. vm_compute in H. discriminate H.
Qed.

(** C3, amended.  When the required types have K and not P, the ranking
    is the one of the same call with P added to the required types, which
    are K and P when K was alone; the selection takes the branch of both
    types, and no list of required types leads to the knowledge-only
    branch. *)
Theorem knowledge_implies_personality (pool : list Assessment)
    (q : QueryContext) (n : nat) :
  Text.mem "K" (llm_test_types q) = true →
  Text.mem "P" (llm_test_types q) = false →
  rank pool q n = rank pool (with_types q (llm_test_types q ++ ["P"])) n
  ∧ (llm_test_types q = ["K"] →
     rank pool q n = rank pool (with_types q ["K"; "P"]) n)
  ∧ select_branch (normalize_test_types (llm_test_types q)) = BothRequired
  ∧ (∀ T, select_branch (normalize_test_types T) ≠ KnowledgeOnly).
Proof.
  intros HK HP.
  assert (Hrank : rank pool q n
            = rank pool (with_types q (llm_test_types q ++ ["P"])) n).
  { rewrite rank_with_types. unfold rank.
    rewrite (normalize_adds_personality _ HK HP).
    rewrite normalize_keeps_personality; [done|].
    rewrite mem_app. apply orb_true_r. }
  repeat split.
  - exact Hrank.
  - intros HT. rewrite Hrank, HT. done.
  - rewrite (normalize_adds_personality _ HK HP).
    unfold select_branch. by rewrite !mem_app, HK, HP.
  - apply never_knowledge_only.
Qed.

(** The required types K and A of the counterexample, with P added. *)
Lemma knowledge_implies_personality_witness :
  rank ability_pool (neutral ["K"; "A"]) 1
  = rank ability_pool (neutral ["K"; "A"; "P"]) 1.
Proof.
  exact (proj1 (knowledge_implies_personality ability_pool
                  (neutral ["K"; "A"]) 1%nat eq_refl eq_refl)).
Defined.

(** *** Determinism *)





(** *** The scenarios of the specification, and two more runs *)

(** The Java test comes first, for the match of its name. *)
Lemma scenario_java_first :
  get_recommendations_local [java_test; team_test]
    {| expanded_skills := ["java"]; llm_job_level := "";
       llm_test_types := ["K"; "P"]; llm_role := "";
       duration_constraint := None |} 2
  = ["A"; "B"].
Proof. vm_compute. reflexivity. Qed.

(** Two candidates of both types and [n = 2]: the round-robin takes the
    first one from either bucket, and one entry is left after the
    dictionary. *)
Lemma both_types_single_entry :
  get_recommendations_local both_types_pool (neutral []) 2 = ["A"].
Proof. vm_compute. reflexivity. Qed.

(** A [null] job level, as the classifier writes it when the query names
    none, makes the call raise. *)
Lemma null_job_level_raises query analysis listing pool n :
  a_job_level analysis = Null → recommend query analysis listing pool n = None.
Proof. intros H. unfold recommend. by rewrite H. Qed.

End Ranking.

(** ** Offline evaluation *)

Section Evaluation.
Local Open Scope Qc_scope.
Local Open Scope list_scope.

Lemma Qc_of_nat_pos (b : nat) : (0 < b)%nat → 0 < Qc_of_Z (Z.of_nat b).
Proof.
  intros Hb. rewrite <- Z2Qc_inj_0. apply (proj1 (Z2Qc_inj_lt _ _)). lia.
Qed.

Lemma ratio_le_mono (a a' b : nat) :
  (0 < b)%nat → (a ≤ a')%nat ↔ ratio a b ≤ ratio a' b.
Proof.
  intros Hb. unfold ratio, Qcdiv.
  rewrite <- Qcmult_le_mono_pos_r by (by apply Qcinv_pos, Qc_of_nat_pos).
  rewrite <- Z2Qc_inj_le. lia.
Qed.

Lemma ratio_diag (b : nat) : (0 < b)%nat → ratio b b = 1.
Proof.
  intros Hb. unfold ratio, Qcdiv. apply Qcmult_inv_r.
  intros H. pose proof (Qc_of_nat_pos b Hb) as Hpos. rewrite H in Hpos.
  by apply Qclt_not_eq in Hpos.
Qed.

Lemma ratio_zero (b : nat) : ratio 0 b = 0.
Proof.
  unfold ratio, Qcdiv. change (Z.of_nat 0) with 0%Z.
  by rewrite Z2Qc_inj_0, Qcmult_0_l.
Qed.

Lemma ratio_one_iff (a b : nat) : (0 < b)%nat → ratio a b = 1 ↔ a = b.
Proof.
  intros Hb. split; [|intros ->; by apply ratio_diag].
  intros H. rewrite <- (ratio_diag b Hb) in H.
  apply Nat.le_antisymm; apply (ratio_le_mono _ _ b Hb); rewrite H; apply Qcle_refl.
Qed.

Lemma ground_truth_size_pos (x : string) (l : list string) :
  (0 < size (list_to_set (x :: l) : gset string))%nat.
Proof.
  destruct (size (list_to_set (x :: l) : gset string)) eqn:Hs; [|lia].
  apply size_empty_inv in Hs. set_solver.
Qed.

Lemma recall_unit (predicted ground_truth : list string) (k : nat) :
  0 ≤ calculate_recall_at_k predicted ground_truth k ≤ 1.
Proof.
  destruct ground_truth as [|x l]; [done|].
  cbn [calculate_recall_at_k]. pose proof (ground_truth_size_pos x l) as Hpos.
  split.
  - rewrite <- (ratio_zero (size (list_to_set (x :: l) : gset string))).
    apply ratio_le_mono; [done | lia].
  - rewrite <- (ratio_diag _ Hpos). apply ratio_le_mono; [done|].
    apply subseteq_size. set_solver.
Qed.

(** The recall is a fraction between 0 and 1; it is 0 without ground
    truth, and 0 with ground truth exactly when none of its identifiers is
    among the first [k] predictions. *)
Theorem recall_bounds (predicted ground_truth : list string) (k : nat) :
  0 ≤ calculate_recall_at_k predicted ground_truth k ≤ 1
  ∧ calculate_recall_at_k predicted [] k = 0
  ∧ (ground_truth ≠ [] →
     calculate_recall_at_k predicted ground_truth k = 0
     ↔ ∀ u, u ∈ ground_truth → u ∉ take k predicted).
Proof.
  split; [apply recall_unit|]. split; [done|].
  destruct ground_truth as [|x l]; [done|]. intros _.
  cbn [calculate_recall_at_k]. pose proof (ground_truth_size_pos x l) as Hpos.
  rewrite <- (ratio_zero (size (list_to_set (x :: l) : gset string))).
  split.
  - intros Hz u Hu Hin.
    assert (Hsize : size (list_to_set (take k predicted)
                            ∩ list_to_set (x :: l) : gset string) = 0%nat).
    { apply Nat.le_antisymm; [|lia]. apply (ratio_le_mono _ _ _ Hpos).
      rewrite Hz. apply Qcle_refl. }
    apply size_empty_inv in Hsize. set_solver.
  - intros Hnone. f_equal. apply size_empty_iff. set_solver.
Qed.

Lemma recall_bounds_witness :
  calculate_recall_at_k ["A"; "B"; "C"] ["C"; "D"] 2 = 0.
Proof.
  apply (proj2 (proj2 (recall_bounds ["A"; "B"; "C"] ["C"; "D"] 2))
           ltac:(discriminate)).
  apply Forall_forall. apply (bool_decide_unpack _). vm_compute. reflexivity.
Defined.

(** With some ground truth, the recall is 1 exactly when every ground
    truth identifier is among the first [k] predictions. *)
Theorem recall_one_iff (predicted ground_truth : list string) (k : nat) :
  ground_truth ≠ [] →
  calculate_recall_at_k predicted ground_truth k = 1
  ↔ ∀ u, u ∈ ground_truth → u ∈ take k predicted.
Proof.
  destruct ground_truth as [|x l]; [done|]. intros _.
  cbn [calculate_recall_at_k]. pose proof (ground_truth_size_pos x l) as Hpos.
  rewrite ratio_one_iff by done. split.
  - intros Hsize u Hu.
    assert (Heq : (list_to_set (take k predicted) ∩ list_to_set (x :: l) : gset string)
                  = list_to_set (x :: l)).
    { apply set_subseteq_size_eq; [set_solver | lia]. }
    assert (Hin : u ∈ (list_to_set (x :: l) : gset string)) by set_solver.
    rewrite <- Heq in Hin. set_solver.
  - intros Hall. f_equal. apply set_eq. intros u.
    rewrite elem_of_intersection, !elem_of_list_to_set. naive_solver.
Qed.

Lemma recall_one_iff_witness :
  calculate_recall_at_k ["A"; "B"; "C"] ["B"; "A"; "B"] 2 = 1.
Proof.
  apply (proj2 (recall_one_iff ["A"; "B"; "C"] ["B"; "A"; "B"] 2 ltac:(discriminate))).
  apply Forall_forall. apply (bool_decide_unpack _). vm_compute. reflexivity.
Defined.

(** Looking at more predictions never lowers the recall, and looking
    beyond the end of the predictions changes nothing. *)
Theorem recall_monotone (predicted ground_truth : list string) (k k' : nat) :
  (k ≤ k')%nat →
  calculate_recall_at_k predicted ground_truth k
  ≤ calculate_recall_at_k predicted ground_truth k'
  ∧ ((length predicted ≤ k)%nat →
     calculate_recall_at_k predicted ground_truth k'
     = calculate_recall_at_k predicted ground_truth k).
Proof.
  intros Hk. destruct ground_truth as [|x l]; [done|].
  cbn [calculate_recall_at_k]. pose proof (ground_truth_size_pos x l) as Hpos.
  split.
  - apply ratio_le_mono; [done|]. apply subseteq_size.
    assert (Hsub : ∀ u, u ∈ take k predicted → u ∈ take k' predicted).
    { intros u (i & Hi & Hlt)%elem_of_take. apply elem_of_take. exists i.
      split; [done | lia]. }
    intros u. rewrite !elem_of_intersection, !elem_of_list_to_set. naive_solver.
  - intros Hlen. by rewrite !take_ge by lia.
Qed.

Lemma recall_monotone_witness :
  calculate_recall_at_k ["A"; "B"] ["B"] 1 ≤ calculate_recall_at_k ["A"; "B"] ["B"] 2.
Proof.
  apply (proj1 (recall_monotone ["A"; "B"] ["B"] 1 2 ltac:(lia))).
Defined.

Lemma size_list_to_set_le (l : list string) :
  (size (list_to_set l : gset string) ≤ length l)%nat.
Proof.
  induction l as [|y t IH]; cbn.
  - by rewrite size_empty.
  - destruct (decide (y ∈ (list_to_set t : gset string))).
    + rewrite subseteq_union_1_L by set_solver. lia.
    + rewrite size_union by set_solver. rewrite size_singleton. lia.
Qed.

(** At most [k] ground truth identifiers are found among [k] predictions:
    when there are more than [k] distinct ones the recall is below 1. *)
Theorem recall_cap (predicted ground_truth : list string) (k : nat) :
  (k < size (list_to_set ground_truth : gset string))%nat →
  calculate_recall_at_k predicted ground_truth k
  ≤ ratio k (size (list_to_set ground_truth : gset string))
  ∧ calculate_recall_at_k predicted ground_truth k < 1.
Proof.
  intros Hk. destruct ground_truth as [|x l].
  { cbn [list_to_set] in Hk. rewrite size_empty in Hk. lia. }
  cbn [calculate_recall_at_k]. pose proof (ground_truth_size_pos x l) as Hpos.
  assert (Hle : ratio (size (list_to_set (take k predicted)
                               ∩ list_to_set (x :: l) : gset string))
                  (size (list_to_set (x :: l) : gset string))
                ≤ ratio k (size (list_to_set (x :: l) : gset string))).
  { apply ratio_le_mono; [done|].
    transitivity (size (list_to_set (take k predicted) : gset string)).
    - apply subseteq_size. set_solver.
    - rewrite size_list_to_set_le, length_take. lia. }
  split; [done|]. apply Qclt_nge. intros Hone.
  assert (Hdiag : ratio (size (list_to_set (x :: l) : gset string))
                    (size (list_to_set (x :: l) : gset string))
                  ≤ ratio k (size (list_to_set (x :: l) : gset string))).
  { rewrite ratio_diag by done. by etransitivity. }
  apply ratio_le_mono in Hdiag; [lia | done].
Qed.

(** Three ground truth identifiers and two predictions. *)
Lemma recall_cap_witness :
  calculate_recall_at_k ["a"; "b"] ["a"; "b"; "c"] 2 < 1.
Proof.
  apply (recall_cap ["a"; "b"] ["a"; "b"; "c"] 2). vm_compute. lia.
Defined.

(** *** The mean recall *)

Lemma fold_left_plus_bounds (l : list Qc) (a : Qc) :
  Forall (λ r, 0 ≤ r ≤ 1) l →
  a ≤ fold_left Qcplus l a ≤ a + Qc_of_Z (Z.of_nat (length l)).
Proof.
  revert a. induction l as [|r l IH]; intros a Hl; cbn [fold_left length].
  - change (Z.of_nat 0) with 0%Z. rewrite Z2Qc_inj_0, Qcplus_0_r.
    split; apply Qcle_refl.
  - apply Forall_cons in Hl as [[Hr0 Hr1] Hl]. destruct (IH (a + r) Hl) as [Hlo Hhi].
    split.
    + etransitivity; [|exact Hlo].
      rewrite <- (Qcplus_0_r a) at 1. by apply Qcplus_le_mono_l.
    + etransitivity; [exact Hhi|].
      rewrite Nat2Z.inj_succ, <- Z.add_1_l, Z2Qc_inj_add, Z2Qc_inj_1.
      rewrite !Qcplus_assoc. apply Qcplus_le_mono_r. by apply Qcplus_le_mono_l.
Qed.

Lemma mean_or_zero_bounds (l : list Qc) :
  Forall (λ r, 0 ≤ r ≤ 1) l → 0 ≤ mean_or_zero l ≤ 1.
Proof.
  intros Hl. destruct l as [|r l]; [done|].
  unfold mean_or_zero. set (n := length (r :: l)).
  assert (Hn : 0 < Qc_of_Z (Z.of_nat n)) by (apply Qc_of_nat_pos; cbn; lia).
  destruct (fold_left_plus_bounds (r :: l) 0 Hl) as [Hlo Hhi].
  rewrite Qcplus_0_l in Hhi. fold n in Hhi.
  pose proof (Qcinv_pos _ Hn) as Hinv. unfold Qcdiv. split.
  - rewrite <- (Qcmult_0_l (/ Qc_of_Z (Z.of_nat n))).
    by apply Qcmult_le_mono_pos_r.
  - rewrite <- (Qcmult_inv_r (Qc_of_Z (Z.of_nat n))).
    + by apply Qcmult_le_mono_pos_r.
    + intros H0. rewrite H0 in Hn. by apply Qclt_not_eq in Hn.
Qed.

Lemma evaluate_scores_bounds predict groups acc :
  Forall (λ r, 0 ≤ r ≤ 1) acc →
  Forall (λ r, 0 ≤ r ≤ 1) (fold_left (evaluate_step predict) groups acc).
Proof.
  revert acc. induction groups as [|item groups IH]; intros acc Hacc; [done|].
  cbn [fold_left]. apply IH. unfold evaluate_step.
  destruct item.2 as [|u gt] eqn:Hgt; [done|].
  destruct (predict item.1) as [predicted|]; [|done].
  apply Forall_app. split; [done|]. apply Forall_singleton.
  apply recall_unit.
Qed.

(** The mean recall of the training data lies between 0 and 1, and the
    groups without ground truth and the queries whose prediction raises
    do not enter it: the mean is the one of the remaining groups. *)
Theorem mean_recall_bounds (predict : string → option (list string))
    (query_groups : list (string * list string)) :
  0 ≤ evaluate_on_training_data predict query_groups ≤ 1
  ∧ evaluate_on_training_data predict query_groups
    = evaluate_on_training_data predict
        (filter (λ item, item.2 ≠ [] ∧ is_Some (predict item.1)) query_groups).
Proof.
  split.
  - apply mean_or_zero_bounds, evaluate_scores_bounds. constructor.
  - unfold evaluate_on_training_data. f_equal. generalize (@nil Qc).
    induction query_groups as [|item groups IH]; intros acc; [done|].
    rewrite filter_cons. case_decide as Hkeep; cbn [fold_left].
    + apply IH.
    + rewrite IH. f_equal. unfold evaluate_step.
      destruct item.2 as [|u gt]; [done|].
      destruct (predict item.1) as [predicted|]; [|done].
      exfalso. apply Hkeep. split; [done | by eexists].
Qed.

(** *** The rows of the predictions *)

Lemma filter_none {A} (P : A → Prop) `{!∀ x, Decision (P x)} (l : list A) :
  (∀ x, x ∈ l → ¬ P x) → filter P l = [].
Proof.
  induction l as [|x l IH]; intros Hl; [done|].
  rewrite filter_cons_False by (apply Hl; left).
  apply IH. intros y Hy. apply Hl. by right.
Qed.

Lemma call_results (sv : Services) (query : string) (n : nat) (urls : list string) :
  get_recommendations_local_call sv query n = Some urls →
  (length urls ≤ n)%nat ∧ NoDup urls.
Proof.
  unfold get_recommendations_local_call, recommend_with, recommend.
  destruct (vector_search sv _) as [pool|]; [|done].
  destruct (get_lower (a_job_level _)) as [jl|]; [|done].
  destruct (get_lower (a_role _)) as [rl|]; [|done].
  intros [= <-]. split.
  - rewrite length_map. apply balance_length_le.
  - apply rank_NoDup.
Qed.

Lemma rows_of_urls (query : string) (urls : list string)
    (acc : list (string * string)) :
  fold_left
    (fun rows url => if String.eqb url "" then rows else rows ++ [(query, url)])
    urls acc
  = acc ++ map (pair query) (filter (λ u, u ≠ "") urls).
Proof.
  revert acc. induction urls as [|u urls IH]; intros acc; cbn [fold_left].
  - by rewrite app_nil_r.
  - rewrite IH, filter_cons. destruct (String.eqb_spec u "") as [->|Hne].
    + by rewrite decide_False by (by intros []).
    + rewrite decide_True by done. cbn. by rewrite <- app_assoc.
Qed.

Lemma prediction_rows_flat_map predict queries (acc : list (string * string)) :
  fold_left
    (fun all_rows query =>
       match predict query with
       | Some urls =>
           fold_left
             (fun rows url =>
                if String.eqb url "" then rows else rows ++ [(query, url)])
             urls all_rows
       | None => all_rows
       end)
    queries acc
  = acc ++ flat_map
             (λ query, match predict query with
                       | Some urls => map (pair query) (filter (λ u, u ≠ "") urls)
                       | None => []
                       end) queries.
Proof.
  revert acc. induction queries as [|q queries IH]; intros acc; cbn [fold_left flat_map].
  - by rewrite app_nil_r.
  - rewrite IH. destruct (predict q) as [urls|].
    + by rewrite rows_of_urls, <- app_assoc.
    + done.
Qed.

(** Every row written for the test set pairs a query of the set with a
    non-empty identifier that the call returned for it; a query whose call
    raises has no row, and a query that occurs once has at most ten rows,
    all different. *)
Theorem prediction_rows_sound (sv : Services) (queries : list string) :
  let predict := λ query, get_recommendations_local_call sv query 10 in
  let rows := prediction_rows predict queries in
  (∀ query url, (query, url) ∈ rows →
     query ∈ queries ∧ url ≠ ""
     ∧ ∃ urls, predict query = Some urls ∧ url ∈ urls)
  ∧ (∀ query, predict query = None → ∀ url, (query, url) ∉ rows)
  ∧ (NoDup queries →
     ∀ query, (length (filter (λ row, row.1 = query) rows) ≤ 10)%nat
              ∧ NoDup (filter (λ row, row.1 = query) rows)).
Proof.
  intros predict rows.
  assert (Hrows : rows = flat_map
            (λ query, match predict query with
                      | Some urls => map (pair query) (filter (λ u, u ≠ "") urls)
                      | None => []
                      end) queries).
  { unfold rows, prediction_rows. by rewrite prediction_rows_flat_map. }
  assert (Hin : ∀ query url, (query, url) ∈ rows →
            query ∈ queries ∧ url ≠ ""
            ∧ ∃ urls, predict query = Some urls ∧ url ∈ urls).
  { intros query url. rewrite Hrows, list_elem_of_In, in_flat_map.
    intros (q & Hq%list_elem_of_In & Hrow%list_elem_of_In).
    destruct (predict q) as [urls|] eqn:Hp; [|by apply elem_of_nil in Hrow].
    apply list_elem_of_fmap in Hrow as (u & [= -> ->] & [Hu Hin]%list_elem_of_filter).
    split; [done|]. split; [done|]. by exists urls. }
  split; [exact Hin|]. split.
  - intros query Hnone url (_ & _ & urls & Hsome & _)%Hin. congruence.
  - intros Hnd query. rewrite Hrows. clear Hrows Hin rows.
    induction Hnd as [|q queries Hq Hnd IH]; cbn [flat_map].
    + split; [cbn; lia | constructor].
    + rewrite filter_app. destruct (decide (q = query)) as [->|Hne].
      * assert (Hrest : filter (λ row : string * string, row.1 = query)
                  (flat_map
                     (λ query0, match predict query0 with
                                | Some urls =>
                                    map (pair query0) (filter (λ u, u ≠ "") urls)
                                | None => []
                                end) queries) = []).
        { apply filter_none. intros [q' u'] Hrow%list_elem_of_In Heq.
          cbn in Heq. subst q'. apply in_flat_map in Hrow as (q' & Hq'%list_elem_of_In & Hrow).
          destruct (predict q'); [|done].
          apply in_map_iff in Hrow as (? & [= -> _] & _). done. }
        rewrite Hrest, app_nil_r.
        destruct (predict query) as [urls|] eqn:Hp; [|split; [cbn; lia | constructor]].
        apply call_results in Hp as [Hlen Hndu].
        assert (Hsub : filter (λ row : string * string, row.1 = query)
                         (map (pair query) (filter (λ u, u ≠ "") urls))
                       `sublist_of` map (pair query) urls).
        { etransitivity; [apply sublist_filter|].
          apply (fmap_sublist (pair query)), sublist_filter. }
        split.
        -- apply sublist_length in Hsub. rewrite length_map in Hsub. lia.
        -- eapply sublist_NoDup; [|exact Hsub].
           apply (NoDup_fmap_2 (pair query)). done.
      * assert (Hhead : filter (λ row : string * string, row.1 = query)
                  (match predict q with
                   | Some urls => map (pair q) (filter (λ u, u ≠ "") urls)
                   | None => []
                   end) = []).
        { apply filter_none. intros [q' u'] Hrow Heq.
          cbn in Heq. subst q'. destruct (predict q); [|by apply elem_of_nil in Hrow].
          apply list_elem_of_fmap in Hrow as (? & [= -> _] & _). done. }
        rewrite Hhead. exact IH.
Qed.

(** One query answered by the store of the two tests. *)
Lemma prediction_rows_sound_witness :
  (length (filter (λ row : string * string, row.1 = "java developer")
             (prediction_rows
                (λ query, get_recommendations_local_call two_test_services query 10)
                ["java developer"])) ≤ 10)%nat.
Proof.
  apply (proj2 (proj2 (prediction_rows_sound two_test_services ["java developer"]))
           (NoDup_singleton "java developer") "java developer").
Defined.

End Evaluation.

(** ** The classifier and the serving handler *)

Section Serving.
Local Open Scope list_scope.

Lemma recommend_with_fallback sv query n :
  recommend_with sv (fallback_reply query) query n = None.
Proof.
  unfold recommend_with. destruct (vector_search sv _); [|done]. reflexivity.
Qed.

(** When the model call raises or its answer is not JSON, [analyse_query]
    answers with its fallback dictionary, whose job level is [None]: the
    evaluation call raises and the handler answers with status 500,
    whatever the query, the store and [n] are. *)
Theorem classifier_failure_raises (sv : Services)
    (generate : string → option string) (json_loads : string → option Reply)
    (query : string) (n : nat) :
  query_analyser sv = Some (analyse_query generate json_loads) →
  (generate query = None
   ∨ ∃ text, generate query = Some text ∧ json_loads (clean_response text) = None) →
  analyse_query generate json_loads query = fallback_reply query
  ∧ get_recommendations_local_call sv query n = None
  ∧ recommend_assessments sv (analyse_query generate json_loads) query n
    = HTTPException 500.
Proof.
  intros Hsv Hfail.
  assert (Hfb : analyse_query generate json_loads query = fallback_reply query).
  { unfold analyse_query. destruct Hfail as [->|(text & -> & ->)]; done. }
  split; [done|]. split.
  - unfold get_recommendations_local_call. rewrite Hsv, Hfb.
    by rewrite recommend_with_fallback.
  - unfold recommend_assessments, recommend_try.
    destruct (_ || _); [done|]. rewrite Hfb. by rewrite recommend_with_fallback.
Qed.

Lemma classifier_failure_raises_witness :
  get_recommendations_local_call silent_model_services "java developer" 10 = None.
Proof.
  apply (classifier_failure_raises silent_model_services (λ _, None) (λ _, None)
           "java developer" 10 eq_refl (or_introl eq_refl)).
Defined.



(** The handler never lets a status other than 500 out: the status 400
    that it raises for a query of fewer than three characters is caught by
    its own [except] clause and answered as 500. *)
Theorem handler_masks_bad_request (sv : Services) (analyse : string → Reply)
    (query : string) (n_results : nat) :
  (∀ status, recommend_assessments sv analyse query n_results
             = HTTPException status → status = 500%nat)
  ∧ ((String.length (Text.strip query) < 3)%nat →
     recommend_try sv analyse query n_results = inr (RaisedHTTP 400)
     ∧ recommend_assessments sv analyse query n_results = HTTPException 500).
Proof.
  split.
  - unfold recommend_assessments.
    destruct (recommend_try sv analyse query n_results) as [resp|e] eqn:Htry.
    + unfold recommend_try in Htry. destruct (_ || _); [done|].
      destruct (recommend_with _ _ _ _); [|done]. injection Htry as <-. done.
    + by intros status [= <-].
  - intros Hshort.
    assert (Htry : recommend_try sv analyse query n_results = inr (RaisedHTTP 400)).
    { unfold recommend_try. apply Nat.ltb_lt in Hshort. rewrite Hshort.
      by rewrite orb_true_r. }
    split; [done|]. unfold recommend_assessments. by rewrite Htry.
Qed.

Lemma handler_masks_bad_request_witness :
  recommend_assessments two_test_services default_reply "  qa  " 10
  = HTTPException 500.
Proof.
  apply (proj2 (handler_masks_bad_request two_test_services default_reply
                  "  qa  " 10)).
  vm_compute. lia.
Defined.

(** A response of the handler lists at most [n_results] assessments with
    different identifiers, in the order of the ranking, and counts them;
    the required test types that it reports are never empty and have P
    whenever they have K; the query had three characters or more. *)
Theorem handler_response_well_formed (sv : Services) (analyse : string → Reply)
    (query : string) (n_results : nat) recs count types expanded dur :
  recommend_assessments sv analyse query n_results
  = Response recs count types expanded dur →
  count = length recs ∧ (count ≤ n_results)%nat
  ∧ NoDup (map rec_url recs) ∧ Sorted descending recs
  ∧ types ≠ [] ∧ ("K" ∈ types → "P" ∈ types)
  ∧ (3 ≤ String.length (Text.strip query))%nat
  ∧ dur = extract_duration_constraint query.
Proof.
  unfold recommend_assessments.
  destruct (recommend_try sv analyse query n_results) as [resp|e] eqn:Htry; [|done].
  intros ->. unfold recommend_try in Htry.
  destruct (String.eqb query "" || _) eqn:Hshort; [done|].
  apply orb_false_iff in Hshort as [_ Hlen%Nat.ltb_ge].
  unfold recommend_with, recommend in Htry.
  destruct (vector_search sv _) as [pool|]; [|done].
  destruct (get_lower (a_job_level _)) as [jl|]; [|done].
  destruct (get_lower (a_role _)) as [rl|]; [|done].
  injection Htry as <- <- <- <- <-.
  split; [done|]. split; [apply balance_length_le|].
  split; [apply rank_NoDup|]. split; [apply balance_Sorted|].
  set (T := a_required_test_types (r_analysis (analyse query))).
  split; [|split; [|done]].
  - destruct T as [|t T]; [done|]. unfold normalize_test_types.
    destruct (_ && _); [by destruct T | done].
  - rewrite <- !mem_spec. intros HK.
    destruct (Text.mem "P" T) eqn:HP.
    + by rewrite normalize_keeps_personality.
    + destruct (Text.mem "K" T) eqn:HK'.
      * rewrite (normalize_adds_personality _ HK' HP), mem_app. apply orb_true_r.
      * destruct T as [|t T]; [done|]. unfold normalize_test_types in HK.
        rewrite HK' in HK. cbn [andb] in HK. congruence.
Qed.

Lemma handler_response_well_formed_witness :
  ∃ recs, (length recs ≤ 10)%nat ∧ map rec_url recs = ["A"; "B"].
Proof.
  eexists. split.
  - eapply (proj1 (proj2 (handler_response_well_formed two_test_services
       default_reply "java developer" 10 _ _ _ _ _ eq_refl))).
  - vm_compute. reflexivity.
Defined.

End Serving.

(** ** The vector store *)

Section VectorStore.
Local Open Scope list_scope.
Local Arguments String.append !_ _ / : simpl nomatch.

Lemma split_char_from_app (x rest cur : string) :
  no_comma x →
  split_char_from comma cur (x ++ rest)%string
  = split_char_from comma (cur ++ x)%string rest.
Proof.
  revert cur. induction x as [|a x IH]; intros cur Hx.
  - by rewrite app_nil_r_s.
  - unfold no_comma in Hx. cbn [Text.all_chars] in Hx.
    apply andb_true_iff in Hx as [Ha Hx]. apply negb_true_iff in Ha.
    simpl. rewrite Ha, (IH _ Hx), app_assoc_s. done.
Qed.

(** The pieces of a joined list: the elements, those after the first
    with the blank of the separator in front. *)
Lemma split_join (l : list string) (cur : string) :
  Forall no_comma l →
  split_char_from comma cur (join ", " l)
  = match l with
    | [] => [cur]
    | x :: rest => (cur ++ x)%string :: map (String " ") rest
    end.
Proof.
  intros Hl. revert cur. induction Hl as [|x rest Hx Hrest IH]; intros cur; [done|].
  destruct rest as [|y rest].
  - cbn [join map]. rewrite <- (app_nil_r_s x) at 1.
    by rewrite split_char_from_app.
  - change (join ", " (x :: y :: rest))
      with (x ++ String comma (String " " (join ", " (y :: rest))))%string.
    rewrite split_char_from_app by done.
    change (split_char_from comma (cur ++ x)
              (String comma (String " " (join ", " (y :: rest)))))
      with ((cur ++ x)%string
            :: split_char_from comma " " (join ", " (y :: rest))).
    by rewrite IH.
Qed.

(** The test types of an entry come back from the store with a blank in
    front of every type but the first, and an entry without types comes
    back with the empty string as its type: a type without a blank in
    front, such as K or P, is found among them only when it is the first
    type of the entry. *)
Theorem retrieved_test_types (e : CatalogEntry) (distance : Qc) :
  Forall no_comma (c_test_types e) →
  test_types (retrieved e distance)
  = match c_test_types e with
    | [] => [""]
    | t :: rest => t :: map (String " ") rest
    end
  ∧ (∀ t, t ≠ "" → Text.starts_with " " t = false →
       Text.mem t (test_types (retrieved e distance)) = true
       ↔ ∃ rest, c_test_types e = t :: rest)
  ∧ (Text.mem "P" (test_types (retrieved e distance)) = true
     ↔ ∃ rest, c_test_types e = "P" :: rest).
Proof.
  intros Hl.
  assert (Htypes : test_types (retrieved e distance)
                   = match c_test_types e with
                     | [] => [""]
                     | t :: rest => t :: map (String " ") rest
                     end).
  { cbn. unfold split_char. rewrite split_join by done.
    by destruct (c_test_types e). }
  assert (Hmem : ∀ t, t ≠ "" → Text.starts_with " " t = false →
            Text.mem t (test_types (retrieved e distance)) = true
            ↔ ∃ rest, c_test_types e = t :: rest).
  { intros t Ht Hblank. rewrite Htypes, mem_spec.
    destruct (c_test_types e) as [|t0 rest].
    - split; [intros ->%list_elem_of_singleton; done | by intros [? ?]].
    - rewrite elem_of_cons. split.
      + intros [->|(y & -> & _)%list_elem_of_fmap]; [by exists rest | done].
      + intros (rest' & [= -> _]). by left. }
  split; [done|]. split; [done|]. by apply Hmem.
Qed.

(** An entry of the types K and P: P is not found after the store. *)
Lemma retrieved_test_types_witness :
  Text.mem "P" (test_types (retrieved verbal_entry 0)) = false.
Proof.
  apply not_true_is_false. intros H.
  apply (proj2 (proj2 (retrieved_test_types verbal_entry 0
           ltac:(repeat constructor)))) in H as (rest & [=]).
Defined.

Lemma join_nonempty (x y : string) (rest : list string) :
  join ", " (x :: y :: rest) ≠ "".
Proof. destruct x; discriminate. Qed.

Lemma strip_lower_blank (s : string) :
  Text.strip (Text.lower (String " " s)) = Text.strip (Text.lower s).
Proof. reflexivity. Qed.

(** The scalar fields of an entry come back as they were, the description
    cut at 500 characters and no duration at all; the skills come back
    with the blank of the separator, which the cleaning of the scoring
    loop removes: the cleaned skills of the retrieved entry are those of
    the catalogue entry. *)
Theorem retrieved_fields (e : CatalogEntry) (distance : Qc) :
  Forall no_comma (c_skills e) → c_skills e ≠ [""] →
  map (fun s => Text.strip (Text.lower s)) (skills (retrieved e distance))
  = map (fun s => Text.strip (Text.lower s)) (c_skills e)
  ∧ name (retrieved e distance) = c_name e
  ∧ url (retrieved e distance) = c_url e
  ∧ job_level (retrieved e distance) = c_job_level e
  ∧ description (retrieved e distance) = Text.take 500 (c_description e)
  ∧ parse_duration (duration (retrieved e distance)) = 999%Z.
Proof.
  intros Hl Hne. split; [|done]. cbn.
  destruct (c_skills e) as [|x [|y rest]] eqn:Hsk.
  - done.
  - cbn [join]. destruct (String.eqb_spec x "") as [->|_]; [done|].
    unfold split_char. rewrite <- (app_nil_r_s x) at 1.
    rewrite split_char_from_app by (by apply Forall_cons in Hl as [? _]). done.
  - destruct (String.eqb_spec (join ", " (x :: y :: rest)) "") as [H|_].
    { by apply join_nonempty in H. }
    unfold split_char. rewrite split_join by done. cbn [map]. f_equal.
    rewrite map_map. cbn [map].
    f_equal;
      first [apply strip_lower_blank
            | apply map_ext; intros s; apply strip_lower_blank].
Qed.

Lemma retrieved_fields_witness :
  map (fun s => Text.strip (Text.lower s)) (skills (retrieved java_entry 0))
  = ["java"; "spring"].
Proof.
  apply (proj1 (retrieved_fields java_entry 0
                  ltac:(repeat constructor) ltac:(discriminate))).
Defined.

(** *** The loop of [search] *)

Lemma search_loop n f (hits : list (Metadata * Qc)) (acc : list SearchResult) :
  (length acc < n)%nat →
  (fold_left (search_step n f) hits (acc, false)).1
  = acc ++ take (n - length acc)
             (map (λ hit, of_hit hit.1 hit.2)
                (filter (λ hit, passes_filter f hit.1 = true) hits)).
Proof.
  revert acc. induction hits as [|hit hits IH]; intros acc Hacc.
  - cbn. by rewrite take_nil, app_nil_r.
  - cbn [fold_left]. unfold search_step at 2. rewrite filter_cons.
    destruct (passes_filter f hit.1) eqn:Hpass; cbn [negb].
    + rewrite decide_True by done.
      destruct (Nat.leb_spec n (length (acc ++ [of_hit hit.1 hit.2]))) as [Hfull|Hroom].
      * assert (Hstop : ∀ l st, (fold_left (search_step n f) l (st, true)).1 = st).
        { clear. induction l as [|h l IHl]; intros st; [done|]. apply IHl. }
        rewrite Hstop. rewrite length_app in Hfull. cbn in Hfull.
        replace (n - length acc)%nat with 1%nat by lia. cbn [map take].
        by rewrite take_0.
      * rewrite IH by done. rewrite length_app in Hroom |- *. cbn in Hroom |- *.
        replace (n - length acc)%nat with (S (n - (length acc + 1))) by lia.
        cbn [map take]. by rewrite <- app_assoc.
    + rewrite decide_False by congruence. by apply IH.
Qed.

Lemma search_take (hits : list (Metadata * Qc)) (n_results : nat)
    (f : option (list string)) :
  search hits n_results f
  = take (n_results `max` 5)
      (map (λ hit, of_hit hit.1 hit.2)
         (filter (λ hit, passes_filter f hit.1 = true) hits)).
Proof.
  unfold search.
  replace (if (n_results <? 5)%nat then 5%nat else n_results)
    with (n_results `max` 5)%nat by (destruct (Nat.ltb_spec n_results 5); lia).
  rewrite search_loop by (cbn; lia). cbn [length app]. by rewrite Nat.sub_0_r.
Qed.

(** [search] returns the hits that pass the filter, in their order, cut
    after [max n_results 5] of them: never more than that, and exactly
    that many, or all the hits, when nothing is filtered. *)
Theorem search_prefix (hits : list (Metadata * Qc)) (n_results : nat)
    (filter_test_types : option (list string)) :
  search hits n_results filter_test_types
  = take (n_results `max` 5)
      (map (λ hit, of_hit hit.1 hit.2)
         (filter (λ hit, passes_filter filter_test_types hit.1 = true) hits))
  ∧ (length (search hits n_results filter_test_types) ≤ n_results `max` 5)%nat
  ∧ length (search hits n_results None)
    = ((n_results `max` 5) `min` length hits)%nat.
Proof.
  pose proof (search_take hits n_results) as Heq.
  split; [apply Heq|]. split.
  - rewrite Heq, length_take. lia.
  - rewrite Heq, length_take, length_map.
    f_equal. f_equal. clear. induction hits as [|h hits IH]; [done|].
    rewrite filter_cons_True by done. by rewrite IH.
Qed.

(** *** The similarity *)

Lemma Qfloor_le_Qc (q : Qc) : (Qc_of_Z (Qfloor q) ≤ q)%Qc.
Proof. unfold Qcle. cbn. apply Qfloor_le. Qed.

Lemma round_half_even_bounds (q : Qc) (n : Z) :
  (0 ≤ q)%Qc → (q ≤ Qc_of_Z n)%Qc → (0 ≤ round_half_even q ≤ n)%Z.
Proof.
  intros H0 Hn. unfold round_half_even.
  pose proof (Qfloor_le_Qc q) as Hfl.
  assert (Hf0 : (0 ≤ Qfloor q)%Z).
  { change 0%Z with (Qfloor 0). apply Qfloor_resp_le. exact H0. }
  assert (Hfn : (Qfloor q ≤ n)%Z).
  { apply Z2Qc_inj_le. by etransitivity. }
  assert (Hup : (dec 1 2 ≤ q - Qc_of_Z (Qfloor q))%Qc → (Qfloor q + 1 ≤ n)%Z).
  { intros Hr. enough (Qfloor q < n)%Z by lia.
    apply (proj2 (Z2Qc_inj_lt _ _)).
    eapply Qclt_le_trans; [|exact Hn].
    apply Qclt_minus_iff. eapply Qclt_le_trans; [|exact Hr]. done. }
  case_bool_decide as H1; [lia|].
  apply Qcnot_lt_le in H1. specialize (Hup H1).
  case_bool_decide; [lia|]. destruct (Z.even _); lia.
Qed.

Lemma round4_unit (x : Qc) : (0 ≤ x ≤ 1)%Qc → (0 ≤ round4 x ≤ 1)%Qc.
Proof.
  intros [H0 H1]. unfold round4.
  assert (Hpos : (0 < Qc_of_Z 10000)%Qc) by done.
  destruct (round_half_even_bounds (x * Qc_of_Z 10000) 10000) as [Hlo Hhi].
  - rewrite <- (Qcmult_0_l (Qc_of_Z 10000)). by apply Qcmult_le_mono_pos_r.
  - rewrite <- (Qcmult_1_l (Qc_of_Z 10000)) at 2. by apply Qcmult_le_mono_pos_r.
  - pose proof (Qcinv_pos _ Hpos) as Hinv. unfold Qcdiv. split.
    + rewrite <- (Qcmult_0_l (/ Qc_of_Z 10000)).
      apply Qcmult_le_mono_pos_r; [done|]. rewrite <- Z2Qc_inj_0.
      by apply (proj1 (Z2Qc_inj_le _ _)).
    + rewrite <- (Qcmult_inv_r (Qc_of_Z 10000)) by done.
      apply Qcmult_le_mono_pos_r; [done|]. by apply (proj1 (Z2Qc_inj_le _ _)).
Qed.

(** For a cosine distance between 0 and 2 the similarity that [search]
    attaches lies between 0 and 1. *)
Theorem similarity_unit_interval (metadata : Metadata) (distance : Qc) :
  (0 ≤ distance ≤ 2)%Qc →
  (0 ≤ similarity_score (sr_assessment (of_hit metadata distance)) ≤ 1)%Qc.
Proof.
  intros [H0 H2]. cbn [of_hit sr_assessment similarity_score].
  apply round4_unit.
  assert (Hhalf : (0 ≤ distance / 2 ≤ 1)%Qc).
  { unfold Qcdiv. assert (Hinv : (0 < / 2)%Qc) by done. split.
    - rewrite <- (Qcmult_0_l (/ 2)). by apply Qcmult_le_mono_pos_r.
    - replace 1%Qc with (2 * / 2)%Qc by (by apply Qc_is_canon).
      by apply Qcmult_le_mono_pos_r. }
  destruct Hhalf as [Hlo Hhi]. split.
  - apply Qcle_minus_iff in Hhi. exact Hhi.
  - apply Qcle_minus_iff. replace (1 + - (1 - distance / 2))%Qc
      with (distance / 2)%Qc by ring. exact Hlo.
Qed.

Lemma similarity_unit_interval_witness :
  (0 ≤ similarity_score (sr_assessment (of_hit (to_metadata java_entry) (dec 3 10)))
   ≤ 1)%Qc.
Proof.
  apply (similarity_unit_interval (to_metadata java_entry) (dec 3 10)).
  split; done.
Defined.

(** *** The identifiers of the collection *)

Lemma assessment_id_inj (i j : nat) : assessment_id i = assessment_id j → i = j.
Proof.
  unfold assessment_id. intros H%(inj (String.append "assessment_")).
  apply (f_equal NilEmpty.uint_of_string) in H. rewrite !NilEmpty.usu in H.
  injection H as H. by apply Unsigned.to_uint_inj.
Qed.

(** [add_assessments] gives the entries different identifiers, one for
    each entry and in their order. *)
Theorem add_assessments_ids (assessments : list CatalogEntry) :
  NoDup (map fst (add_assessments assessments))
  ∧ map snd (add_assessments assessments) = map to_metadata assessments.
Proof.
  unfold add_assessments. split.
  - assert (Hids : ∀ (l : list CatalogEntry) k,
              map fst (imap (λ i e, (assessment_id (k + i), to_metadata e)) l)
              = map assessment_id (seq k (length l))).
    { induction l as [|e l IH]; intros k; [done|]. cbn [imap map length seq].
      rewrite Nat.add_0_r. f_equal. rewrite <- (IH (S k)). f_equal.
      apply imap_ext. intros i x _. unfold compose. cbv beta.
      do 2 f_equal. lia. }
    pose proof (Hids assessments 0%nat) as H0. cbn [Nat.add] in H0. rewrite H0.
    apply (NoDup_fmap_2_strong assessment_id).
    + intros i j _ _. apply assessment_id_inj.
    + apply NoDup_seq.
  - generalize assessment_id. induction assessments as [|e l IH]; intros g; [done|].
    cbn [imap map]. f_equal. apply (IH (g ∘ S)).
Qed.

End VectorStore.

(** ** The ranking under order-preserving changes of the scores *)

Section Relabelling.
Local Open Scope Qc_scope.
Local Open Scope list_scope.

Variable f : Scored → Scored.
Hypothesis f_url : ∀ r, rec_url (f r) = rec_url r.
Hypothesis f_types : ∀ r, test_types (res (f r)) = test_types (res r).
Hypothesis f_order : ∀ x y,
  final_score (f y) ≤ final_score (f x) ↔ final_score y ≤ final_score x.












End Relabelling.

Section RankingEdges.
Local Open Scope Qc_scope.
Local Open Scope list_scope.






(** *** The round-robin *)

Lemma weave_lookup bk bp i :
  (i < length bk)%nat → (i < length bp)%nat →
  weave bk bp !! (2 * i)%nat = bk !! i
  ∧ weave bk bp !! (2 * i + 1)%nat = bp !! i.
Proof.
  revert bk bp. induction i as [|i IH]; intros [|a bk] [|b bp] Hk Hp;
    cbn in Hk, Hp; try lia.
  - done.
  - replace (2 * S i)%nat with (S (S (2 * i))) by lia.
    replace (S (S (2 * i)) + 1)%nat with (S (S (2 * i + 1))) by lia.
    cbn [weave lookup list_lookup]. apply IH; lia.
Qed.

(** When both types are required, the selection alternates: as long as
    both buckets last and [n] is not reached, its entry [2i] is entry [i]
    of the knowledge bucket and its entry [2i + 1] is entry [i] of the
    personality bucket. *)
Theorem selection_alternates (types : list string) (n : nat) (b : Buckets)
    (i : nat) :
  select_branch types = BothRequired →
  (i < length (best_k b))%nat → (i < length (best_p b))%nat →
  ((2 * i < n)%nat → select types n b !! (2 * i)%nat = best_k b !! i)
  ∧ ((2 * i + 1 < n)%nat → select types n b !! (2 * i + 1)%nat = best_p b !! i).
Proof.
  intros Hboth Hk Hp. unfold select. rewrite Hboth, interleave_weave.
  destruct (weave_lookup _ _ _ Hk Hp) as [He Ho].
  split; intros Hn; by rewrite lookup_take_lt.
Qed.

Lemma selection_alternates_witness :
  let b := make_buckets
             (sorted_desc (score_all (neutral []) ["K"; "P"] mixed_pool)) in
  select ["K"; "P"] 3 b !! 2%nat = best_k b !! 1%nat.
Proof.
  intros b.
  apply (proj1 (selection_alternates ["K"; "P"] 3 b 1 eq_refl
                  ltac:(vm_compute; lia) ltac:(vm_compute; lia))).
  lia.
Defined.

(** *** When neither K nor P is required *)

Lemma unique_by_url_length l : (length (unique_by_url l) ≤ length l)%nat.
Proof.
  rewrite <- (length_map rec_url (unique_by_url l)), <- (length_map rec_url l).
  apply submseteq_length, NoDup_submseteq; [apply unique_by_url_NoDup|].
  intros id (r & -> & Hr%unique_by_url_elem_of)%list_elem_of_fmap.
  apply list_elem_of_fmap. by exists r.
Qed.

(** When the required types have neither K nor P and every candidate of
    the pool is of type K or P, the result has at most [n/2] entries of
    either bucket: for an odd [n] it never has [n] entries. *)
Theorem neither_required_short (pool : list Assessment) (q : QueryContext)
    (n : nat) :
  select_branch (normalize_test_types (llm_test_types q)) = NeitherRequired →
  (∀ a, a ∈ pool →
     Text.mem "K" (test_types a) = true ∨ Text.mem "P" (test_types a) = true) →
  (length (rank pool q n) ≤ 2 * (n / 2))%nat.
Proof.
  intros Hbranch Hpool. unfold rank, balance.
  set (types := normalize_test_types (llm_test_types q)).
  set (S := sorted_desc (score_all q types pool)).
  assert (Hother : best_other (make_buckets S) = []).
  { rewrite make_buckets_other.
    destruct (collect is_other S []) as [|x l] eqn:Hc; [done|]. exfalso.
    assert (Hx : x ∈ collect is_other S []) by (rewrite Hc; left).
    apply collect_elem_of in Hx as [[]%not_elem_of_nil|[Hx Ho]].
    unfold S in Hx. rewrite sorted_desc_Permutation in Hx.
    apply score_all_elem_of in Hx as [Hres _].
    unfold is_other, is_k, is_p in Ho. destruct (Hpool _ Hres) as [H|H];
      rewrite H in Ho; cbn in Ho; [done|]. by rewrite andb_false_r in Ho. }
  rewrite Hother, length_take, sorted_desc_length.
  assert (Hback : ∀ u, backfill n u [] = u).
  { intros u. unfold backfill. by destruct (length u <? n)%nat. }
  rewrite Hback.
  pose proof (unique_by_url_length (select types n (make_buckets S))) as Hu.
  unfold select in Hu |- *. fold types in Hbranch. rewrite Hbranch in Hu |- *.
  rewrite length_app, !length_take in Hu. lia.
Qed.

Lemma neither_required_short_witness :
  (length (rank mixed_pool (neutral ["A"]) 3) ≤ 2)%nat.
Proof.
  apply (neither_required_short mixed_pool (neutral ["A"]) 3 eq_refl).
  apply Forall_forall. apply (bool_decide_unpack _). vm_compute. reflexivity.
Defined.

(** *** The range of the scores *)







End RankingEdges.

(** ** The cleaning of the classifier's answer *)

Section Cleaning.
Local Open Scope string_scope.
Local Arguments String.append !_ _ / : simpl nomatch.

Lemma starts_with_backquote_false (old t : string) (c : ascii) :
  Ascii.eqb c "`"%char = false →
  Text.starts_with (String "`" old) (String c t) = false.
Proof.
  intros Hc. cbn [Text.starts_with]. rewrite Ascii.eqb_sym in Hc. by rewrite Hc.
Qed.

(** A text without backquote is copied by the replacement of a string
    that starts with one. *)
Lemma replace_from_copy (old new body rest : string) :
  no_backquote body →
  replace_from (String "`" old) new 0 (body ++ rest)
  = body ++ replace_from (String "`" old) new 0 rest.
Proof.
  induction body as [|c body IH]; intros Hbody; [done|].
  unfold no_backquote in Hbody. cbn [Text.all_chars] in Hbody.
  apply andb_true_iff in Hbody as [Hc Hbody]. apply negb_true_iff in Hc.
  change (String c body ++ rest) with (String c (body ++ rest)).
  cbn [replace_from]. rewrite starts_with_backquote_false by done.
  simpl. by rewrite IH.
Qed.

(** An answer that is a fenced block, marked as JSON or not, is cleaned
    to the text between the fences, without the white space around it,
    when that text has no backquote. *)
Theorem clean_response_unwraps (text body : string) :
  no_backquote body →
  (Text.strip text = fence ++ "json" ++ body ++ fence →
   clean_response text = Text.strip body)
  ∧ (Text.strip text = fence ++ body ++ fence →
     Text.starts_with "json" body = false →
     clean_response text = Text.strip body)
  ∧ (Text.starts_with fence (Text.strip text) = false →
     clean_response text = Text.strip text).
Proof.
  intros Hbody.
  assert (Htail : ∀ old, replace (String "`" old) "" (body ++ fence)
                         = body ++ replace (String "`" old) "" fence).
  { intros old. unfold replace. by apply replace_from_copy. }
  split; [|split].
  - intros Htext. unfold clean_response. rewrite Htext.
    change (Text.starts_with (fence ++ "json") (fence ++ "json" ++ body ++ fence))
      with true. cbv iota.
    change (replace (fence ++ "json") "" (fence ++ "json" ++ body ++ fence))
      with (replace (String "`" "``json") "" (body ++ fence)).
    rewrite (Htail "``json").
    change (replace (String "`" "``json") "" fence) with fence.
    change (replace fence "" (body ++ fence))
      with (replace (String "`" "``") "" (body ++ fence)).
    rewrite (Htail "``").
    change (replace (String "`" "``") "" fence) with "".
    by rewrite app_nil_r_s.
  - intros Htext Hjson. unfold clean_response. rewrite Htext.
    assert (Hnot : Text.starts_with (fence ++ "json") (fence ++ body ++ fence) = false).
    { change (Text.starts_with (fence ++ "json") (fence ++ body ++ fence))
        with (Text.starts_with "json" (body ++ fence)).
      destruct body as [|c1 [|c2 [|c3 [|c4 body]]]];
        cbn [Text.starts_with String.append fence] in Hjson |- *;
        repeat (destruct (Ascii.eqb _ _); try done). }
    rewrite Hnot.
    change (Text.starts_with fence (fence ++ body ++ fence)) with true. cbv iota.
    change (replace fence "" (fence ++ body ++ fence))
      with (replace (String "`" "``") "" (body ++ fence)).
    rewrite (Htail "``").
    change (replace (String "`" "``") "" fence) with "".
    by rewrite app_nil_r_s.
  - intros Hfence. unfold clean_response.
    assert (Hjson : Text.starts_with (fence ++ "json") (Text.strip text) = false).
    { destruct (Text.strip text) as [|c1 [|c2 [|c3 t]]];
        cbn [Text.starts_with String.append fence] in Hfence |- *;
        try done; repeat (destruct (Ascii.eqb _ _); try done). }
    by rewrite Hjson, Hfence.
Qed.

(** A block marked as JSON with blanks around it. *)
Lemma clean_response_unwraps_witness :
  clean_response " ```json {} ``` " = "{}".
Proof.
  apply (proj1 (clean_response_unwraps " ```json {} ``` " " {} " eq_refl) eq_refl).
Defined.

End Cleaning.

(** ** The keyword index *)

Section KeywordIndex.
Local Open Scope string_scope.
Local Arguments String.append !_ _ / : simpl nomatch.

Lemma all_chars_app (p : ascii → bool) (a b : string) :
  Text.all_chars p (a ++ b) = Text.all_chars p a && Text.all_chars p b.
Proof.
  induction a as [|c a IH]; simpl; [done|]. by rewrite IH, andb_assoc.
Qed.

Lemma words_from_app_space (cur a b : string) :
  words_from cur (a ++ String " " b) = (words_from cur a ++ words_from "" b)%list.
Proof.
  revert cur. induction a as [|c a IH]; intros cur; simpl.
  - by destruct (String.eqb cur "").
  - destruct (is_word c); [apply IH|].
    destruct (String.eqb cur ""); [apply IH|]. by rewrite IH.
Qed.

Lemma findall_words_join (l : list string) :
  findall_words (join " " l) = flat_map findall_words l.
Proof.
  induction l as [|x [|y rest] IH]; [done| |].
  - cbn [join flat_map]. by rewrite app_nil_r.
  - change (join " " (x :: y :: rest)) with (x ++ String " " (join " " (y :: rest))).
    unfold findall_words at 1. rewrite words_from_app_space.
    change (words_from "" (join " " (y :: rest)))
      with (findall_words (join " " (y :: rest))).
    by rewrite IH.
Qed.

Lemma lower_join (l : list string) :
  Text.lower (join " " l) = join " " (map Text.lower l).
Proof.
  induction l as [|x [|y rest] IH]; [done..|].
  change (join " " (x :: y :: rest)) with (x ++ String " " (join " " (y :: rest))).
  rewrite lower_app. cbn [Text.lower]. rewrite IH. done.
Qed.

(** The keywords of an entry in the index are the words of its name, its
    description, each of its skills, its category, its job level and each
    of its test types, in lower case: a skill of several words is indexed
    word by word. *)
Theorem index_keywords_fields (e : CatalogEntry) (k : string) :
  k ∈ index_keywords e
  ↔ k ∈ findall_words (Text.lower (c_name e))
    ∨ k ∈ findall_words (Text.lower (c_description e))
    ∨ (∃ s, s ∈ c_skills e ∧ k ∈ findall_words (Text.lower s))
    ∨ k ∈ findall_words (Text.lower (c_category e))
    ∨ k ∈ findall_words (Text.lower (c_job_level e))
    ∨ (∃ t, t ∈ c_test_types e ∧ k ∈ findall_words (Text.lower t)).
Proof.
  unfold index_keywords, full_text.
  rewrite elem_of_list_to_set, lower_join, findall_words_join.
  cbn [map flat_map]. rewrite !lower_join, !findall_words_join, app_nil_r.
  rewrite !elem_of_app.
  assert (Hflat : ∀ l : list string,
            k ∈ flat_map findall_words (map Text.lower l)
            ↔ ∃ s, s ∈ l ∧ k ∈ findall_words (Text.lower s)).
  { intros l. rewrite list_elem_of_In, in_flat_map. split.
    - intros (x & Hx%list_elem_of_In & Hk%list_elem_of_In).
      apply list_elem_of_fmap in Hx as (s & -> & Hs). by exists s.
    - intros (s & Hs & Hk). exists (Text.lower s).
      split; apply list_elem_of_In; [|done]. apply list_elem_of_fmap. by exists s. }
  rewrite !Hflat. done.
Qed.

Lemma words_from_elem (cur s w : string) :
  w ∈ words_from cur s → Text.all_chars is_word cur = true →
  Text.all_chars is_word w = true ∧ w ≠ ""
  ∧ ∃ pre post, cur ++ s = pre ++ w ++ post.
Proof.
  revert cur. induction s as [|c s IH]; intros cur; cbn [words_from].
  - destruct (String.eqb_spec cur "") as [->|Hne]; [by intros []%elem_of_nil|].
    intros ->%list_elem_of_singleton Hcur. split; [done|]. split; [done|].
    exists "", "". by rewrite !app_nil_r_s.
  - destruct (is_word c) eqn:Hc.
    + intros Hw Hcur. destruct (IH _ Hw) as (Hall & Hne & pre & post & Heq).
      { rewrite all_chars_app, Hcur. cbn. by rewrite Hc. }
      split; [done|]. split; [done|]. exists pre, post.
      rewrite <- Heq, app_assoc_s. done.
    + destruct (String.eqb_spec cur "") as [->|Hne].
      * intros Hw _. destruct (IH _ Hw eq_refl) as (Hall & Hne & pre & post & Heq).
        split; [done|]. split; [done|]. exists (String c pre), post.
        simpl in Heq |- *. by rewrite Heq.
      * intros [->|Hw]%elem_of_cons Hcur.
        -- split; [done|]. split; [done|]. by exists "", (String c s).
        -- destruct (IH _ Hw eq_refl) as (Hall & Hne' & pre & post & Heq).
           split; [done|]. split; [done|]. exists (cur ++ String c pre), post.
           simpl in Heq. rewrite Heq, app_assoc_s. done.
Qed.

Lemma contains_intro (w pre post : string) :
  Text.contains w (pre ++ w ++ post) = true.
Proof.
  induction pre as [|c pre IH].
  - assert (H : Text.starts_with w (w ++ post) = true)
      by (apply starts_with_spec; by exists post).
    simpl. destruct (w ++ post); cbn [Text.contains]; by rewrite H.
  - change (String c pre ++ w ++ post) with (String c (pre ++ w ++ post)).
    cbn [Text.contains]. rewrite IH. apply orb_true_r.
Qed.

Lemma lower_fixed (s : string) :
  Text.all_chars (λ c, Ascii.eqb (Text.lower_char c) c) s = true →
  Text.lower s = s.
Proof.
  induction s as [|c s IH]; [done|]. cbn [Text.all_chars Text.lower].
  intros [Hc%Ascii.eqb_eq Hs]%andb_true_iff. by rewrite Hc, IH.
Qed.

Lemma lower_all_fixed (s : string) :
  Text.all_chars (λ c, Ascii.eqb (Text.lower_char c) c) (Text.lower s) = true.
Proof.
  induction s as [|c s IH]; [done|]. cbn [Text.lower Text.all_chars].
  by rewrite lower_char_idemp, Ascii.eqb_refl, IH.
Qed.

(** A keyword of a query has three characters or more, all of them word
    characters in lower case, is no stop word, and occurs in the lowered
    query. *)
Theorem query_keywords_sound (query k : string) :
  k ∈ extract_query_keywords query →
  (3 ≤ String.length k)%nat
  ∧ k ∉ stop_words
  ∧ Text.all_chars is_word k = true
  ∧ Text.lower k = k
  ∧ Text.contains k (Text.lower query) = true.
Proof.
  unfold extract_query_keywords.
  rewrite elem_of_list_to_set, list_elem_of_filter.
  intros [[Hstop Hlen] Hk]. split; [lia|]. split.
  { rewrite <- mem_spec. congruence. }
  apply words_from_elem in Hk as (Hall & _ & pre & post & Heq); [|done].
  change ("" ++ Text.lower query) with (Text.lower query) in Heq.
  split; [done|]. split.
  - apply lower_fixed. pose proof (lower_all_fixed query) as Hq.
    rewrite Heq, !all_chars_app in Hq.
    by apply andb_true_iff in Hq as [_ [? _]%andb_true_iff].
  - rewrite Heq. apply contains_intro.
Qed.

Lemma query_keywords_sound_witness :
  Text.contains "java" (Text.lower "Java developers for the team") = true.
Proof.
  apply (query_keywords_sound "Java developers for the team" "java").
  apply (bool_decide_unpack _). vm_compute. reflexivity.
Defined.

End KeywordIndex.
